(** * Map-reduce summarisation graph of [summax.js]

    A shallow embedding of the summarisation pipeline: the token-cost
    estimator [lengthFunction], the router [shouldCollapse], the four graph
    nodes, the state annotation [OverallState], the graph wiring and the
    loop of the driver that consumes the stream of steps.

    Conventions.
    - JavaScript numbers that hold lengths and their sums are integers far
      below 2^53; they are modelled as [Z].
    - A JavaScript string is a [string]; [String.length] stands for
      [.length].
    - [async] functions that only compute (no client call) are plain
      functions where their result is awaited; [lengthFunction] is also
      handed over as a callback, and there it is [lengthFunction_async],
      which returns a promise.  Functions that call the language-model
      client live in the monad [M], which threads the state of the remote
      service and records every prompt that was sent.
    - The progress display computes with IEEE binary64 numbers; they are
      the primitive floats.
    - A [Document] is reduced to its [pageContent], the only field the
      program reads. *)

From Stdlib Require Import ZArith List String Ascii Bool Lia.
From Stdlib Require Import Permutation.
From Stdlib Require Import Floats Uint63.
Import ListNotations.

Local Open Scope Z_scope.

(** ** Data model *)

Record Document : Type := mkDocument { pageContent : string }.

(** [response.content] of a chat message: a string, or an array of content
    parts (plain objects). *)
Inductive MessageContent : Type :=
| ContentText (s : string)
| ContentParts (n : nat).

(** The four nodes added to the graph. *)
Inductive Node : Type :=
| N_generateSummary
| N_collectSummaries
| N_collapseSummaries
| N_generateFinalSummary.

Definition Node_eqb (a b : Node) : bool :=
  match a, b with
  | N_generateSummary, N_generateSummary => true
  | N_collectSummaries, N_collectSummaries => true
  | N_collapseSummaries, N_collapseSummaries => true
  | N_generateFinalSummary, N_generateFinalSummary => true
  | _, _ => false
  end.

(** The channels of [OverallState].  A channel that was never written is
    the empty list, or [None] for [finalSummary]. *)
Record OverallState : Type := mkState {
  contents : list string;
  summaries : list string;
  collapsedSummaries : list Document;
  finalSummary : option string
}.

(** The object a node returns: a partial state, one optional entry per
    channel. *)
Record Update : Type := mkUpdate {
  u_contents : option (list string);
  u_summaries : option (list string);
  u_collapsedSummaries : option (list Document);
  u_finalSummary : option string
}.

Definition no_update : Update := mkUpdate None None None None.

(** [OverallState = Annotation.Root({...})]: [summaries] has the reducer
    [(state, update) => state.concat(update)]; the three other channels keep
    the last value written. *)
Definition apply_update (st : OverallState) (u : Update) : OverallState :=
  {| contents :=
       match u_contents u with Some v => v | None => contents st end;
     summaries :=
       match u_summaries u with
       | Some v => (summaries st ++ v)%list
       | None => summaries st
       end;
     collapsedSummaries :=
       match u_collapsedSummaries u with
       | Some v => v
       | None => collapsedSummaries st
       end;
     finalSummary :=
       match u_finalSummary u with
       | Some v => Some v
       | None => finalSummary st
       end |}.

(** Errors a run can end with. *)
Inductive Error : Type :=
| UpstreamError (msg : string)
| CollapseLimitExceeded.

(** ** Token-cost estimator *)

(** [doc.pageContent.length] *)
Definition cost (doc : Document) : Z :=
  Z.of_nat (String.length (pageContent doc)).

(** [lengthFunction]: map every document to its length, then
    [tokenCounts.reduce((sum, count) => sum + count, 0)]. *)
Definition lengthFunction (documents : list Document) : Z :=
  let tokenCounts := map cost documents in
  fold_left (fun sum count => sum + count) tokenCounts 0.

(** What an [async] function returns to a caller: a promise of the value,
    which only [await] turns into the value. *)
Inductive Promise (A : Type) : Type :=
| resolved (value : A).

Arguments resolved {A} value.

Definition await {A : Type} (p : Promise A) : A :=
  match p with
  | resolved value => value
  end.

(** [lengthFunction] as the function it is declared as, [async function
    lengthFunction(documents)]: a call returns a promise.  [shouldCollapse]
    awaits it; [collapseSummaries] hands the function itself to
    [splitListOfDocs]. *)
Definition lengthFunction_async (documents : list Document) : Promise Z :=
  resolved (lengthFunction documents).

(** ** JavaScript coercions used by the program *)

Fixpoint join (sep : string) (l : list string) : string :=
  match l with
  | [] => EmptyString
  | [x] => x
  | x :: rest => (x ++ sep ++ join sep rest)%string
  end.

(** [String(response.content)]: a string is itself; an array is its
    elements joined by commas, every plain object printing as
    [[object Object]]. *)
Definition js_String (c : MessageContent) : string :=
  match c with
  | ContentText s => s
  | ContentParts n => join "," (repeat "[object Object]"%string n)
  end.

(** Truthiness of a string: every string but the empty one. *)
Definition truthy (s : string) : bool :=
  match s with
  | EmptyString => false
  | String _ _ => true
  end.

(** ** The progress display *)

(** The result of [Math.round]: an integer, [NaN] or an infinity. *)
Inductive Rounded : Type :=
| RInt (z : Z)
| RNaN
| RInfinite (negative : bool).

(** [Math.round(x)]: the nearest integer, a half going up; computed
    exactly on the mantissa and exponent of [x]. *)
Definition Math_round (x : float) : Rounded :=
  match Prim2SF x with
  | S754_zero _ => RInt 0
  | S754_infinity negative => RInfinite negative
  | S754_nan => RNaN
  | S754_finite negative m e =>
      let n := if negative then Z.neg m else Z.pos m in
      if 0 <=? e then RInt (n * 2 ^ e)
      else RInt ((2 * n + 2 ^ (- e)) / (2 * 2 ^ (- e)))
  end.

(** A counter as a number (exact below 2^53). *)
Definition Number_of_nat (n : nat) : float :=
  PrimFloat.of_uint63 (Uint63.of_Z (Z.of_nat n)).

(** [const barLength = 30] *)
Definition barLength : Z := 30.

(** [Math.round((current / total) * barLength)] *)
Definition filledLength (current total : nat) : Rounded :=
  Math_round
    (PrimFloat.mul
       (PrimFloat.div (Number_of_nat current) (Number_of_nat total))
       30%float).

(** [barLength - filledLength] *)
Definition emptyLength (filled : Rounded) : Rounded :=
  match filled with
  | RInt z => RInt (barLength - z)
  | RNaN => RNaN
  | RInfinite negative => RInfinite (negb negative)
  end.

(** [String.prototype.repeat(count)] throws a [RangeError] when the count
    is negative or infinite; [NaN] counts as zero. *)
Definition repeat_throws (count : Rounded) : bool :=
  match count with
  | RInt z => z <? 0
  | RNaN => false
  | RInfinite _ => true
  end.

(** [showLoadingBar(current, total, message)] throws when one of its two
    [repeat] calls does; nothing else in it can throw. *)
Definition showLoadingBar_throws (current total : nat) : bool :=
  repeat_throws (filledLength current total) ||
  repeat_throws (emptyLength (filledLength current total)).

(** ** Batch partitioner and batch reducer wrapper *)

(** Modelled from the spec: the Batch Partitioner of section 4.2, which the
    program imports as [splitListOfDocs] from the [langchain] package; the
    package is not part of the sources.  Units are scanned in order and
    accumulated into [current] while the total cost of [current] plus the
    next unit stays within the budget; when adding the next unit would
    exceed the budget, [current] is closed and a new sub-list starts with
    that unit.  A unit that starts a sub-list is taken whatever its cost, so
    an oversized unit is neither dropped nor truncated, and no empty
    sub-list is ever emitted. *)
Fixpoint partition_from (totalCost : list Document -> Z) (budget : Z)
         (current units : list Document) : list (list Document) :=
  match units with
  | [] =>
      match current with
      | [] => []
      | _ :: _ => [current]
      end
  | next :: rest =>
      match current with
      | [] => partition_from totalCost budget [next] rest
      | _ :: _ =>
          if totalCost (current ++ [next])%list <=? budget
          then partition_from totalCost budget (current ++ [next])%list rest
          else current :: partition_from totalCost budget [next] rest
      end
  end.

(** Modelled from the spec: [partition(units, budget)] of section 4.2, with
    the argument order of the call [splitListOfDocs(docs, lengthFunction,
    tokenMax)]. *)
Definition partition (units : list Document)
           (totalCost : list Document -> Z) (budget : Z)
  : list (list Document) :=
  partition_from totalCost budget [] units.

(** Modelled from the spec: the partitioner of section 4.2 given a cost
    function that returns promises, each of which it awaits. *)
Definition partition_awaiting (units : list Document)
           (totalCost : list Document -> Promise Z) (budget : Z)
  : list (list Document) :=
  partition units (fun sub => await (totalCost sub)) budget.

(** A sub-list that the budget does not cover: one unit, oversized. *)
Definition forced_singleton (budget : Z) (sub : list Document) : Prop :=
  exists unit, sub = [unit] /\ cost unit > budget.

(** ** Constants of the script *)

(** [let tokenMax = 1500] *)
Definition tokenMax_source : Z := 1500.

(** [{ recursionLimit: 10 }] *)
Definition recursionLimit_source : nat := 10.

(** ** Concrete clients and helpers for the worked examples *)

(** A client that always answers with the same content. *)
Definition const_llm (answer : MessageContent)
  : string -> unit -> (string + MessageContent) * unit :=
  fun _ _ => (inr answer, tt).

(** A client whose every call throws. *)
Definition failing_llm (msg : string)
  : string -> unit -> (string + MessageContent) * unit :=
  fun _ _ => (inl msg, tt).

(** A client that repeats the prompt it was given. *)
Definition echo_llm : string -> unit -> (string + MessageContent) * unit :=
  fun prompt _ => (inr (ContentText prompt), tt).

(** A client with a quota: it repeats the prompt for its first [quota]
    calls and throws afterwards; its state counts the calls. *)
Definition quota_llm (quota : nat)
  : string -> nat -> (string + MessageContent) * nat :=
  fun prompt used =>
    if Nat.ltb used quota then (inr (ContentText prompt), S used)
    else (inl "quota exceeded"%string, S used).

(** A client that follows a script: its n-th call answers with the n-th
    string of the script (the empty string once the script is over); its
    state counts the calls. *)
Definition scripted_llm (script : list string)
  : string -> nat -> (string + MessageContent) * nat :=
  fun _ used => (inr (ContentText (nth used script EmptyString)), S used).

(** Prompt templates reduced to plain text. *)
Definition plain_mapPrompt (context : string) : string := context.

Definition plain_reducePrompt (docs : list Document) : string :=
  join "," (map pageContent docs).

Definition dquote : ascii := "034"%char.
Definition backslash : ascii := "092"%char.
Definition newline : ascii := "010"%char.

Definition hex_digit (n : nat) : ascii :=
  ascii_of_nat (if Nat.ltb n 10 then 48 + n else 87 + n)%nat.

(** One character inside a JSON string literal. *)
Definition JSON_escape (c : ascii) : string :=
  let n := nat_of_ascii c in
  if Nat.eqb n 34 then String backslash (String dquote EmptyString)
  else if Nat.eqb n 92 then String backslash (String backslash EmptyString)
  else if Nat.eqb n 8 then String backslash "b"
  else if Nat.eqb n 9 then String backslash "t"
  else if Nat.eqb n 10 then String backslash "n"
  else if Nat.eqb n 12 then String backslash "f"
  else if Nat.eqb n 13 then String backslash "r"
  else if Nat.ltb n 32 then
    String backslash
      (String "u" (String "0" (String "0"
        (String (hex_digit (Nat.div n 16))
          (String (hex_digit (Nat.modulo n 16)) EmptyString)))))
  else String c EmptyString.

Fixpoint JSON_escape_all (s : string) : string :=
  match s with
  | EmptyString => EmptyString
  | String c rest => (JSON_escape c ++ JSON_escape_all rest)%string
  end.

Definition JSON_quote (s : string) : string :=
  String dquote (JSON_escape_all s ++ String dquote EmptyString)%string.

(** [JSON.stringify(u, null, 2)] on the object returned by
    [generateFinalSummary], whose only property is [finalSummary]. *)
Definition JSON_stringify_finalSummary (u : Update) : string :=
  match u_finalSummary u with
  | Some s =>
      (String "{" (String newline "  ") ++ JSON_quote "finalSummary" ++ ": "
         ++ JSON_quote s ++ String newline "}")%string
  | None => "{}"%string
  end.

(** ** The nodes, over an arbitrary client and arbitrary library helpers *)

Section Pipeline.

(** The chat-model client: the state of the remote service and one
    invocation, which throws ([inl], with a message) or answers. *)
Variable LLM : Type.
Variable Prompt : Type.
Variable llm_invoke : Prompt -> LLM -> (string + MessageContent) * LLM.

(** [mapPrompt.invoke({ context })] and [reducePrompt.invoke({ docs })]:
    formatting of the two prompt templates. *)
Variable mapPrompt : string -> Prompt.
Variable reducePrompt : list Document -> Prompt.

(** The budget: the global [tokenMax], [tokenMax_source] in the script. *)
Variable tokenMax : Z.

(** What a computation can touch: the remote service, and a log of the
    prompts sent to it. *)
Record World : Type := mkWorld {
  llm : LLM;
  calls : list Prompt
}.

Definition M (A : Type) : Type := World -> (Error + A) * World.

Definition ret {A : Type} (a : A) : M A := fun w => (inr a, w).

Definition bind {A B : Type} (m : M A) (k : A -> M B) : M B :=
  fun w =>
    match m w with
    | (inl e, w') => (inl e, w')
    | (inr a, w') => k a w'
    end.

Notation "x <- m ;; k" := (bind m (fun x => k))
  (at level 61, m at next level, right associativity).

(** [await llm.invoke(prompt)] *)
Definition llm_call (prompt : Prompt) : M MessageContent :=
  fun w =>
    let (r, s') := llm_invoke prompt (llm w) in
    let w' := {| llm := s'; calls := (calls w ++ [prompt])%list |} in
    match r with
    | inl msg => (inl (UpstreamError msg), w')
    | inr content => (inr content, w')
    end.

(** [generateSummary]: its state is the [{ content }] of a [Send]. *)
Definition generateSummary (content : string) : M Update :=
  let prompt := mapPrompt content in
  response <- llm_call prompt ;;
  let summary := js_String response in
  ret {| u_contents := None; u_summaries := Some [summary];
         u_collapsedSummaries := None; u_finalSummary := None |}.

Definition collectSummaries (state : OverallState) : M Update :=
  ret {| u_contents := None; u_summaries := None;
         u_collapsedSummaries :=
           Some (map (fun summary => mkDocument summary) (summaries state));
         u_finalSummary := None |}.

(** [shouldCollapse]: the name of the next node. *)
Definition shouldCollapse (state : OverallState) : Node :=
  let numTokens := lengthFunction (collapsedSummaries state) in
  if numTokens >? tokenMax then N_collapseSummaries
  else N_generateFinalSummary.

Definition _reduce (input : list Document) : M string :=
  let prompt := reducePrompt input in
  response <- llm_call prompt ;;
  ret (js_String response).

Definition generateFinalSummary (state : OverallState) : M Update :=
  response <- _reduce (collapsedSummaries state) ;;
  ret {| u_contents := None; u_summaries := None;
         u_collapsedSummaries := None; u_finalSummary := Some response |}.

(** [splitListOfDocs] and [collapseDocs] are imported from the
    [langchain] package; the nodes are stated over any implementation of
    them.  The length callback of [splitListOfDocs] is given as the program
    gives it: an [async] function. *)
Variable splitListOfDocs :
  list Document -> (list Document -> Promise Z) -> Z -> list (list Document).
Variable collapseDocs :
  list Document -> (list Document -> M string) -> M Document.

(** The [for] loop of [collapseSummaries]: [rest] is
    [docLists.slice(i)], [results] the array being pushed to. *)
Fixpoint collapse_loop (rest : list (list Document))
         (results : list Document) : M (list Document) :=
  match rest with
  | [] => ret results
  | docList :: rest' =>
      collapsed <- collapseDocs docList _reduce ;;
      collapse_loop rest' (results ++ [collapsed])%list
  end.

Definition collapseSummaries (state : OverallState) : M Update :=
  let docLists :=
    splitListOfDocs (collapsedSummaries state) lengthFunction_async tokenMax in
  results <- collapse_loop docLists [] ;;
  ret {| u_contents := None; u_summaries := None;
         u_collapsedSummaries := Some results; u_finalSummary := None |}.

(** Modelled from the spec: the Batch Reducer wrapper of section 4.4, which
    the program imports as [collapseDocs] from the [langchain] package (not
    part of the sources): the output of the combining function wrapped as a
    new summary unit. *)
Definition collapseDocs_model (docs : list Document)
           (combineDocumentFunc : list Document -> M string) : M Document :=
  result <- combineDocumentFunc docs ;;
  ret (mkDocument result).

(** ** Graph wiring *)

(** A unit of work of one step: a [Send('generateSummary', { content })]
    packet, or one of the three nodes that read the whole state. *)
Inductive Task : Type :=
| Task_generateSummary (content : string)
| Task_collectSummaries
| Task_collapseSummaries
| Task_generateFinalSummary.

Definition task_node (t : Task) : Node :=
  match t with
  | Task_generateSummary _ => N_generateSummary
  | Task_collectSummaries => N_collectSummaries
  | Task_collapseSummaries => N_collapseSummaries
  | Task_generateFinalSummary => N_generateFinalSummary
  end.

(** [mapSummaries]: one [Send] per element of [state.contents]. *)
Definition mapSummaries (state : OverallState) : list Task :=
  map (fun content => Task_generateSummary content) (contents state).

(** The targets declared for the conditional edges that use
    [shouldCollapse]: [['collapseSummaries', 'generateFinalSummary']]. *)
Definition branch_target (name : Node) : list Task :=
  match name with
  | N_collapseSummaries => [Task_collapseSummaries]
  | N_generateFinalSummary => [Task_generateFinalSummary]
  | _ => []
  end.

(** The router attached to a node by [addConditionalEdges], if any. *)
Definition conditional_edge (n : Node) : option (OverallState -> Node) :=
  match n with
  | N_collectSummaries => Some shouldCollapse
  | N_collapseSummaries => Some shouldCollapse
  | _ => None
  end.

(** The plain edges added by [addEdge]; [None] is ['__end__']. *)
Definition edge (n : Node) : list (option Node) :=
  match n with
  | N_generateSummary => [Some N_collectSummaries]
  | N_generateFinalSummary => [None]
  | _ => []
  end.

Definition edge_task (target : option Node) : list Task :=
  match target with
  | Some N_collectSummaries => [Task_collectSummaries]
  | Some N_collapseSummaries => [Task_collapseSummaries]
  | Some N_generateFinalSummary => [Task_generateFinalSummary]
  | _ => []
  end.

(** What a node that has just run schedules, on the state after its update. *)
Definition edges_from (n : Node) (state : OverallState) : list Task :=
  (flat_map edge_task (edge n) ++
   match conditional_edge n with
   | Some router => branch_target (router state)
   | None => []
   end)%list.

Definition run_task (state : OverallState) (t : Task) : M Update :=
  match t with
  | Task_generateSummary content => generateSummary content
  | Task_collectSummaries => collectSummaries state
  | Task_collapseSummaries => collapseSummaries state
  | Task_generateFinalSummary => generateFinalSummary state
  end.

(** ** Graph runtime *)

Inductive Status : Type :=
| Running
| Done
| Failed (e : Error).

(** One element of the stream: [{ [nodeName]: update }]. *)
Definition Chunk : Type := (Node * Update)%type.

Record Config : Type := mkConfig {
  status : Status;
  step : nat;
  tasks : list Task;
  state : OverallState;
  world : World;
  stream : list Chunk
}.

(** The tasks of one step, all reading the state the step started from;
    the first failure ends the step. *)
Fixpoint run_tasks (st : OverallState) (ts : list Task) : M (list Chunk) :=
  match ts with
  | [] => ret []
  | t :: rest =>
      u <- run_task st t ;;
      us <- run_tasks st rest ;;
      ret ((task_node t, u) :: us)
  end.

Fixpoint dedup (ns : list Node) : list Node :=
  match ns with
  | [] => []
  | n :: rest =>
      if existsb (Node_eqb n) rest then dedup rest else n :: dedup rest
  end.

Definition next_tasks (ran : list Task) (st : OverallState) : list Task :=
  flat_map (fun n => edges_from n st) (dedup (map task_node ran)).

Variable recursionLimit : nat.

(** Modelled from the spec: the step loop of the compiled graph
    ([app.stream], from the [@langchain/langgraph] package, not part of the
    sources), after section 4.5.  A step runs the pending tasks, applies
    their updates through the channels of [OverallState], emits one chunk
    per task and schedules what the edges of the nodes that ran lead to.
    With nothing pending the run is done; with work pending after
    [recursionLimit] steps it fails with [CollapseLimitExceeded]; a failing
    task fails the run and publishes nothing of its step. *)
Definition tick (c : Config) : Config :=
  match status c with
  | Running =>
      match tasks c with
      | [] => mkConfig Done (step c) [] (state c) (world c) (stream c)
      | _ :: _ =>
          if (recursionLimit <=? step c)%nat
          then mkConfig (Failed CollapseLimitExceeded) (step c) (tasks c)
                        (state c) (world c) (stream c)
          else
            match run_tasks (state c) (tasks c) (world c) with
            | (inl e, w') =>
                mkConfig (Failed e) (step c) (tasks c) (state c) w' (stream c)
            | (inr chunks, w') =>
                let st' := fold_left apply_update (map snd chunks) (state c) in
                mkConfig Running (S (step c)) (next_tasks (tasks c) st') st' w'
                         (stream c ++ chunks)%list
            end
      end
  | _ => c
  end.

Definition empty_state : OverallState := mkState [] [] [] None.

(** The run starts from the input [{ contents }], with the tasks that the
    conditional edge from ['__start__'] ([mapSummaries]) sends. *)
Definition start (input : list string) (w : World) : Config :=
  let st := apply_update empty_state
              (mkUpdate (Some input) None None None) in
  mkConfig Running 0 (mapSummaries st) st w [].

Definition terminal (c : Config) : Prop :=
  status c = Done \/ exists e, status c = Failed e.

(** [app.stream({ contents }, { recursionLimit })], run to its end. *)
Definition app_stream (input : list string) (w : World) : Config :=
  Nat.iter (S recursionLimit) tick (start input w).

(** Number of chunks of a node in a stream. *)
Definition count_node (n : Node) (s : list Chunk) : nat :=
  List.length (filter (fun ch => Node_eqb (fst ch) n) s).

(** ** The loop of the driver *)

(** [JSON.stringify(value, null, 2)] on an update object. *)
Variable JSON_stringify : Update -> string.

Record Driver : Type := mkDriver {
  d_finalSummary : option Update;
  summaryCount : nat;
  currentStep : nat
}.

(** [let totalSteps = splitDocs.length + 3], the total the progress display
    is given; [contents] holds one string per element of [splitDocs]. *)
Definition totalSteps (input : list string) : nat :=
  (List.length input + 3)%nat.

(** The variables after the body of [for await (const step of ...)] has run
    to its end on one chunk: the counters incremented and, on a
    [generateFinalSummary] chunk, [finalSummary] assigned.  The calls of
    [showLoadingBar], which stand in between and may throw, are in
    [script_body]. *)
Definition driver_step (d : Driver) (ch : Chunk) : Driver :=
  let d1 :=
    if Node_eqb (fst ch) N_generateSummary
    then mkDriver (d_finalSummary d) (S (summaryCount d)) (S (currentStep d))
    else d in
  let d2 :=
    if Node_eqb (fst ch) N_collectSummaries
    then mkDriver (d_finalSummary d1) (summaryCount d1) (S (currentStep d1))
    else d1 in
  let d3 :=
    if Node_eqb (fst ch) N_collapseSummaries
    then mkDriver (d_finalSummary d2) (summaryCount d2) (S (currentStep d2))
    else d2 in
  if Node_eqb (fst ch) N_generateFinalSummary
  then mkDriver (Some (snd ch)) (summaryCount d3) (S (currentStep d3))
  else d3.

Definition driver_loop (s : list Chunk) : Driver :=
  fold_left driver_step s (mkDriver None 0 0).

(** The call [showLoadingBar(currentStep, totalSteps, ...)]: [inl] when it
    throws, with the variables as they are then. *)
Definition display (total : nat) (d : Driver) : Driver + Driver :=
  if showLoadingBar_throws (currentStep d) total then inl d else inr d.

Definition and_then (r : Driver + Driver) (k : Driver -> Driver + Driver)
  : Driver + Driver :=
  match r with
  | inl d => inl d
  | inr d => k d
  end.

(** The body of [for await (const step of ...)], for one chunk, as
    written: in each of the four blocks the counters are incremented, then
    [showLoadingBar] is called, and in the last block [finalSummary] is
    assigned after that call. *)
Definition script_body (total : nat) (d : Driver) (ch : Chunk)
  : Driver + Driver :=
  and_then
    (if Node_eqb (fst ch) N_generateSummary
     then display total
            (mkDriver (d_finalSummary d) (S (summaryCount d))
                      (S (currentStep d)))
     else inr d)
    (fun d1 =>
  and_then
    (if Node_eqb (fst ch) N_collectSummaries
     then display total
            (mkDriver (d_finalSummary d1) (summaryCount d1)
                      (S (currentStep d1)))
     else inr d1)
    (fun d2 =>
  and_then
    (if Node_eqb (fst ch) N_collapseSummaries
     then display total
            (mkDriver (d_finalSummary d2) (summaryCount d2)
                      (S (currentStep d2)))
     else inr d2)
    (fun d3 =>
  if Node_eqb (fst ch) N_generateFinalSummary
  then and_then
         (display total
            (mkDriver (d_finalSummary d3) (summaryCount d3)
                      (S (currentStep d3))))
         (fun d4 =>
            inr (mkDriver (Some (snd ch)) (summaryCount d4) (currentStep d4)))
  else inr d3))).

(** The loop over the stream: it ends with the stream, or at the first
    chunk on which the body throws. *)
Fixpoint script_loop (total : nat) (d : Driver) (s : list Chunk)
  : Driver + Driver :=
  match s with
  | [] => inr d
  | ch :: rest =>
      match script_body total d ch with
      | inl thrown => inl thrown
      | inr d' => script_loop total d' rest
      end
  end.

(** The counters once a chunk is counted, before anything is assigned. *)
Definition count_step (d : Driver) (ch : Chunk) : Driver :=
  mkDriver (d_finalSummary d) (summaryCount (driver_step d ch))
           (currentStep (driver_step d ch)).

(** [summaryText], for the object held in [finalSummary]: an update is not
    a string and has no [content] property. *)
Definition summaryText (fs : Update) : string :=
  match u_finalSummary fs with
  | Some s => if truthy s then s else JSON_stringify fs
  | None => JSON_stringify fs
  end.

(** What the script writes once the loop is over: the text, or the line
    that says no final summary was produced.  A [RangeError] of the
    progress display throws out of the loop at the chunk it occurs on; a
    failed run throws out of the loop once its chunks are consumed; both
    write neither. *)
Inductive Output : Type :=
| Shown (text : string)
| NoFinalSummary
| Thrown (e : Error)
| ThrownRangeError.

Definition run_script (input : list string) (w : World) : Output :=
  let c := app_stream input w in
  match script_loop (totalSteps input) (mkDriver None 0 0) (stream c) with
  | inl _ => ThrownRangeError
  | inr d =>
      match status c with
      | Failed e => Thrown e
      | _ =>
          match d_finalSummary d with
          | Some fs => Shown (summaryText fs)
          | None => NoFinalSummary
          end
      end
  end.

(** ** Predicates used to state the properties *)

(** The sum of the individual unit costs, as the estimator's contract words
    it. *)
Fixpoint sum_of_costs (units : list Document) : Z :=
  match units with
  | [] => 0
  | unit :: rest => cost unit + sum_of_costs rest
  end.

(** Every sub-list but the last one is full: the first unit of the next
    sub-list would not have fitted. *)
Definition full_before (budget : Z) (sub next : list Document) : Prop :=
  match next with
  | [] => True
  | unit :: _ => lengthFunction (sub ++ [unit])%list > budget
  end.

Fixpoint greedy (budget : Z) (p : list (list Document)) : Prop :=
  match p with
  | [] => True
  | sub :: later =>
      match later with
      | [] => True
      | next :: _ => full_before budget sub next
      end /\ greedy budget later
  end.

(** [results] are the merged units of the sub-lists, one call of
    [collapseDocs] per sub-list, made in the order of the sub-lists. *)
Inductive reduced_in_order
  : list (list Document) -> World -> list Document -> World -> Prop :=
| reduced_nil (w : World) : reduced_in_order [] w [] w
| reduced_cons (docList : list Document) (rest : list (list Document))
    (w w1 w2 : World) (collapsed : Document) (results : list Document) :
    collapseDocs docList _reduce w = (inr collapsed, w1) ->
    reduced_in_order rest w1 results w2 ->
    reduced_in_order (docList :: rest) w (collapsed :: results) w2.

(** The update that writes [collapsedSummaries] and nothing else. *)
Definition collapsed_update (v : list Document) : Update :=
  mkUpdate None None (Some v) None.

(** The update that writes [finalSummary] and nothing else. *)
Definition final_update (s : string) : Update :=
  mkUpdate None None None (Some s).

(** The run has produced its final summary: the last chunk of the stream is
    the only one of [generateFinalSummary], it carries the string stored in
    the state, and that string is the answer to one [_reduce] over the whole
    working set. *)
Definition finished (c : Config) : Prop :=
  exists (s : string) (pre : list Chunk) (w0 : World),
    stream c = (pre ++ [(N_generateFinalSummary, final_update s)])%list /\
    count_node N_generateFinalSummary pre = 0%nat /\
    finalSummary (state c) = Some s /\
    _reduce (collapsedSummaries (state c)) w0 = (inr s, world c) /\
    calls (world c) =
      (calls w0 ++ [reducePrompt (collapsedSummaries (state c))])%list.

(** Where a run started on [input] in world [w] can be. *)
Inductive Phase (input : list string) (w : World) (c : Config) : Prop :=
| Ph_fanout :
    status c = Running ->
    tasks c = map Task_generateSummary input ->
    stream c = [] -> world c = w -> finalSummary (state c) = None ->
    Phase input w c
| Ph_loop :
    status c = Running ->
    tasks c = [Task_collectSummaries] \/
    tasks c = [Task_collapseSummaries] \/
    tasks c = [Task_generateFinalSummary] ->
    count_node N_generateFinalSummary (stream c) = 0%nat ->
    Phase input w c
| Ph_finished :
    status c = Running \/ status c = Done ->
    tasks c = [] -> finished c ->
    Phase input w c
| Ph_empty :
    status c = Done -> input = [] -> tasks c = [] ->
    stream c = [] -> world c = w -> finalSummary (state c) = None ->
    Phase input w c
| Ph_capped :
    status c = Failed CollapseLimitExceeded ->
    step c = recursionLimit -> tasks c <> [] ->
    count_node N_generateFinalSummary (stream c) = 0%nat ->
    Phase input w c
| Ph_task_failed (e : Error) (w0 : World) :
    status c = Failed e ->
    run_tasks (state c) (tasks c) w0 = (inl e, world c) ->
    count_node N_generateFinalSummary (stream c) = 0%nat ->
    Phase input w c.

(** What holds of every configuration of a run. *)
Definition Inv (input : list string) (w : World) (c : Config) : Prop :=
  (step c <= recursionLimit)%nat /\
  (count_node N_collapseSummaries (stream c) <= step c)%nat /\
  (In Task_collapseSummaries (tasks c) ->
   lengthFunction (collapsedSummaries (state c)) > tokenMax) /\
  Phase input w c.

(** ** Further predicates: the course of a run *)

(** The update of [generateSummary]: one summary appended. *)
Definition summary_update (s : string) : Update :=
  mkUpdate None (Some [s]) None None.

(** The sum of the lengths of a list of strings. *)
Fixpoint total_length (l : list string) : Z :=
  match l with
  | [] => 0
  | s :: rest => Z.of_nat (String.length s) + total_length rest
  end.

(** The first [pre] sub-lists were merged, then [collapseDocs] failed on the
    next one. *)
Definition fails_after (pre : list (list Document)) (docList : list Document)
           (w w' : World) (e : Error) : Prop :=
  exists (merged : list Document) (w1 : World),
    reduced_in_order pre w merged w1 /\
    collapseDocs docList _reduce w1 = (inl e, w').

(** How far a run started on [input] in world [w] has come: the steps
    taken, the nodes of the chunks streamed so far, and what the state and
    the log of prompts hold at that point; [k] counts the collapsing steps
    taken. *)
Inductive Shape (input : list string) (w : World) (c : Config) : Prop :=
| Sh_fanout :
    step c = 0%nat ->
    tasks c = map Task_generateSummary input ->
    stream c = [] ->
    summaries (state c) = [] ->
    finalSummary (state c) = None ->
    (status c = Running -> world c = w) ->
    Shape input w c
| Sh_collect :
    step c = 1%nat ->
    tasks c = [Task_collectSummaries] ->
    map fst (stream c) = repeat N_generateSummary (List.length input) ->
    List.length (summaries (state c)) = List.length input ->
    finalSummary (state c) = None ->
    (status c = Running ->
     calls (world c) = (calls w ++ map mapPrompt input)%list) ->
    Shape input w c
| Sh_loop (k : nat) :
    step c = (2 + k)%nat ->
    (tasks c = [Task_collapseSummaries] /\
     lengthFunction (collapsedSummaries (state c)) > tokenMax) \/
    (tasks c = [Task_generateFinalSummary] /\
     lengthFunction (collapsedSummaries (state c)) <= tokenMax) ->
    map fst (stream c) =
      (repeat N_generateSummary (List.length input) ++
       N_collectSummaries :: repeat N_collapseSummaries k)%list ->
    List.length (summaries (state c)) = List.length input ->
    finalSummary (state c) = None ->
    (k = 0%nat ->
     collapsedSummaries (state c) = map mkDocument (summaries (state c)) /\
     (status c = Running ->
      calls (world c) = (calls w ++ map mapPrompt input)%list)) ->
    Shape input w c
| Sh_final (k : nat) :
    step c = (3 + k)%nat ->
    tasks c = [] ->
    status c = Running \/ status c = Done ->
    map fst (stream c) =
      (repeat N_generateSummary (List.length input) ++
       N_collectSummaries :: repeat N_collapseSummaries k ++
       [N_generateFinalSummary])%list ->
    List.length (summaries (state c)) = List.length input ->
    lengthFunction (collapsedSummaries (state c)) <= tokenMax ->
    (exists s, finalSummary (state c) = Some s) ->
    (k = 0%nat ->
     collapsedSummaries (state c) = map mkDocument (summaries (state c)) /\
     calls (world c) =
       (calls w ++ map mapPrompt input ++
        [reducePrompt (collapsedSummaries (state c))])%list) ->
    Shape input w c.

(** [c] is what the step that ran [generateFinalSummary] from [c0] left:
    one [_reduce] over the whole working set of [c0], started in the world
    of [c0], returned [s]; the log grew by that one prompt; the state is the
    state of [c0] with [finalSummary] written, and the stream that of [c0]
    with the chunk of the step. *)
Definition final_step_from (c0 c : Config) (s : string) : Prop :=
  status c0 = Running /\
  tasks c0 = [Task_generateFinalSummary] /\
  count_node N_generateFinalSummary (stream c0) = 0%nat /\
  _reduce (collapsedSummaries (state c0)) (world c0) = (inr s, world c) /\
  calls (world c) =
    (calls (world c0) ++ [reducePrompt (collapsedSummaries (state c0))])%list /\
  state c = apply_update (state c0) (final_update s) /\
  stream c = (stream c0 ++ [(N_generateFinalSummary, final_update s)])%list.

(** The course of a run, and its input, which no node rewrites. *)
Definition Course (input : list string) (w : World) (c : Config) : Prop :=
  contents (state c) = input /\ Shape input w c.

(** * Properties *)

(** ** Token-cost estimator *)

Lemma fold_sum_shift (counts : list Z) (acc : Z) :
  fold_left (fun sum count => sum + count) counts acc =
  acc + fold_left (fun sum count => sum + count) counts 0.
Proof.
  revert acc.
  induction counts as [|count counts IH]; intro acc; simpl.
  - lia.
  - rewrite IH. rewrite (IH count). lia.
Qed.

Lemma lengthFunction_cons (unit : Document) (units : list Document) :
  lengthFunction (unit :: units) = cost unit + lengthFunction units.
Proof.
  unfold lengthFunction. simpl. apply fold_sum_shift.
Qed.

Lemma lengthFunction_sum (units : list Document) :
  lengthFunction units = sum_of_costs units.
Proof.
  induction units as [|unit units IH].
  - reflexivity.
  - rewrite lengthFunction_cons, IH. reflexivity.
Qed.

Lemma cost_nonneg (unit : Document) : 0 <= cost unit.
Proof. unfold cost. lia. Qed.

Lemma lengthFunction_nonneg (units : list Document) :
  0 <= lengthFunction units.
Proof.
  induction units as [|unit units IH].
  - unfold lengthFunction. simpl. lia.
  - rewrite lengthFunction_cons. pose proof (cost_nonneg unit). lia.
Qed.

Lemma lengthFunction_app (a b : list Document) :
  lengthFunction (a ++ b) = lengthFunction a + lengthFunction b.
Proof.
  induction a as [|unit a IH]; simpl.
  - change (lengthFunction []) with 0. lia.
  - rewrite !lengthFunction_cons, IH. lia.
Qed.

Lemma lengthFunction_single (unit : Document) :
  lengthFunction [unit] = cost unit.
Proof. rewrite lengthFunction_cons. unfold lengthFunction. simpl. lia. Qed.

(** C6.  The estimator is a function of its argument alone (it takes no
    world and returns no error): the cost of a unit is a non-negative
    integer, the total cost of a list is the sum of the costs of its units,
    and appending a unit never decreases the total. *)
Theorem estimator_contract (units : list Document) (unit : Document) :
  0 <= cost unit /\
  lengthFunction units = sum_of_costs units /\
  lengthFunction units <= lengthFunction (units ++ [unit]) /\
  lengthFunction (units ++ [unit]) = lengthFunction units + cost unit.
Proof.
  pose proof (cost_nonneg unit) as Hc.
  rewrite lengthFunction_app, lengthFunction_single.
  repeat split; try lia.
  apply lengthFunction_sum.
Qed.

(** ** Batch partitioner *)

Lemma partition_from_concat (budget : Z) (units current : list Document) :
  List.concat (partition_from lengthFunction budget current units) =
  (current ++ units)%list.
Proof.
  revert current.
  induction units as [|next rest IH]; intro current.
  - destruct current; simpl; [reflexivity|].
    now rewrite !app_nil_r.
  - destruct current as [|c current]; simpl.
    + apply IH.
    + destruct (_ <=? budget).
      * rewrite IH. simpl. now rewrite <- app_assoc.
      * simpl. rewrite IH. reflexivity.
Qed.

Lemma partition_from_nonempty (budget : Z) (units current : list Document) :
  Forall (fun sub => sub <> []) (partition_from lengthFunction budget current units).
Proof.
  revert current.
  induction units as [|next rest IH]; intro current.
  - destruct current; simpl; constructor; [discriminate|constructor].
  - destruct current as [|c current]; simpl.
    + apply IH.
    + destruct (_ <=? budget).
      * apply IH.
      * constructor; [discriminate|apply IH].
Qed.

(** A sub-list under construction is within the budget or is one oversized
    unit; so is every sub-list that comes out. *)
Lemma partition_from_budget (budget : Z) (units current : list Document) :
  current = [] \/ lengthFunction current <= budget \/
    forced_singleton budget current ->
  Forall (fun sub => lengthFunction sub <= budget \/ forced_singleton budget sub)
         (partition_from lengthFunction budget current units).
Proof.
  assert (Hstart : forall unit : Document,
             lengthFunction [unit] <= budget \/ forced_singleton budget [unit]).
  { intro unit. rewrite lengthFunction_single.
    destruct (Z_le_gt_dec (cost unit) budget) as [Hle|Hgt]; [now left|].
    right. exists unit. now split. }
  revert current.
  induction units as [|next rest IH]; intros current Hcur.
  - destruct current as [|c current]; simpl; constructor; [|constructor].
    destruct Hcur as [Hnil|Hcur]; [discriminate|exact Hcur].
  - destruct current as [|c current]; simpl.
    + apply IH. right. apply Hstart.
    + destruct (lengthFunction (c :: current ++ [next]) <=? budget) eqn:Hfit.
      * apply IH. right. left. now apply Z.leb_le.
      * constructor.
        -- destruct Hcur as [Hnil|Hcur]; [discriminate|exact Hcur].
        -- apply IH. right. apply Hstart.
Qed.

(** The first sub-list that comes out extends the one under construction. *)
Lemma partition_from_head (budget : Z) (units : list Document)
      (c : Document) (current : list Document) :
  exists ext later,
    partition_from lengthFunction budget (c :: current) units =
    ((c :: current) ++ ext)%list :: later.
Proof.
  revert c current.
  induction units as [|next rest IH]; intros c current.
  - exists [], []. simpl. now rewrite app_nil_r.
  - simpl. destruct (_ <=? budget).
    + destruct (IH c (current ++ [next])%list) as (ext & later & Heq).
      exists (next :: ext), later.
      simpl in Heq. rewrite Heq. simpl. now rewrite <- app_assoc.
    + exists [], (partition_from lengthFunction budget [next] rest).
      now rewrite app_nil_r.
Qed.

Lemma partition_from_greedy (budget : Z) (units current : list Document) :
  greedy budget (partition_from lengthFunction budget current units).
Proof.
  revert current.
  induction units as [|next rest IH]; intro current.
  - destruct current; simpl; auto.
  - destruct current as [|c current]; simpl.
    + apply IH.
    + destruct (lengthFunction (c :: current ++ [next]) <=? budget) eqn:Hfit.
      * apply IH.
      * split; [|apply IH].
        destruct (partition_from_head budget rest next []) as (ext & later & Heq).
        rewrite Heq. simpl.
        apply Z.leb_gt in Hfit. simpl. lia.
Qed.

(** The partitioner of the spec, given costs it can read, is an
    order-preserving cover of the input: the sub-lists, in order, concatenate
    to the input, so every unit is in exactly one of them and nothing is
    dropped, truncated or moved; no sub-list is empty; the partition is
    greedy (every sub-list followed by another one is full); a unit whose own
    cost exceeds the budget is alone in its sub-list; and the empty input
    gives the empty partition.  This is a fact of the spec's algorithm, not
    of the call in [collapseSummaries], whose callback returns promises. *)
Theorem partition_cover (units : list Document) (budget : Z) :
  List.concat (partition units lengthFunction budget) = units /\
  Forall (fun sub => sub <> []) (partition units lengthFunction budget) /\
  greedy budget (partition units lengthFunction budget) /\
  (forall sub unit,
      In sub (partition units lengthFunction budget) ->
      In unit sub -> cost unit > budget -> sub = [unit]) /\
  partition [] lengthFunction budget = [].
Proof.
  unfold partition.
  split; [apply partition_from_concat|].
  split; [apply partition_from_nonempty|].
  split; [apply partition_from_greedy|].
  split; [|reflexivity].
  intros sub unit Hsub Hin Hbig.
  pose proof (partition_from_budget budget units [] (or_introl eq_refl)) as Hall.
  rewrite Forall_forall in Hall.
  destruct (Hall sub Hsub) as [Hle|(only & Heq & _)].
  - exfalso.
    apply in_split in Hin. destruct Hin as (l1 & l2 & ->).
    rewrite lengthFunction_app, lengthFunction_cons in Hle.
    pose proof (lengthFunction_nonneg l1).
    pose proof (lengthFunction_nonneg l2). lia.
  - subst sub. destruct Hin as [->|[]]. reflexivity.
Qed.

(** Every sub-list of a partition of the spec's partitioner has a total
    cost within the budget, except a forced singleton: one unit, whose own
    cost exceeds the budget.  Again a fact of the spec's algorithm on costs
    it can read. *)
Theorem partition_budget_respect (units : list Document) (budget : Z) :
  Forall (fun sub => lengthFunction sub <= budget \/ forced_singleton budget sub)
         (partition units lengthFunction budget).
Proof.
  unfold partition. apply partition_from_budget. now left.
Qed.

(** ** The monad *)

Lemma bind_inr {A B : Type} (m : M A) (k : A -> M B) (w w' : World) (b : B) :
  bind m k w = (inr b, w') ->
  exists a w1, m w = (inr a, w1) /\ k a w1 = (inr b, w').
Proof.
  unfold bind. destruct (m w) as [[e|a] w1]; intro H.
  - discriminate.
  - now exists a, w1.
Qed.

Lemma bind_inl {A B : Type} (m : M A) (k : A -> M B) (w w' : World) (e : Error) :
  bind m k w = (inl e, w') ->
  m w = (inl e, w') \/
  exists a w1, m w = (inr a, w1) /\ k a w1 = (inl e, w').
Proof.
  unfold bind. destruct (m w) as [[e0|a] w1]; intro H.
  - left. injection H as <- <-. reflexivity.
  - right. now exists a, w1.
Qed.

(** One client call: the prompt is logged once, whatever the outcome. *)
Lemma llm_call_inr (prompt : Prompt) (w w' : World) (content : MessageContent) :
  llm_call prompt w = (inr content, w') ->
  llm_invoke prompt (llm w) = (inr content, llm w') /\
  calls w' = (calls w ++ [prompt])%list.
Proof.
  unfold llm_call. destruct (llm_invoke prompt (llm w)) as [[msg|c] s'].
  - discriminate.
  - intro H. injection H as <- <-. now split.
Qed.

Lemma reduce_inr (input : list Document) (w w' : World) (s : string) :
  _reduce input w = (inr s, w') ->
  calls w' = (calls w ++ [reducePrompt input])%list.
Proof.
  unfold _reduce. intro H.
  apply bind_inr in H. destruct H as (content & w1 & Hcall & Hret).
  apply llm_call_inr in Hcall. destruct Hcall as [_ Hlog].
  unfold ret in Hret. injection Hret as _ <-. exact Hlog.
Qed.

(** ** Chunk summarizer *)

Lemma tick_task_failure (c : Config) (e : Error) (w' : World) :
  status c = Running -> tasks c <> [] ->
  (step c < recursionLimit)%nat ->
  run_tasks (state c) (tasks c) (world c) = (inl e, w') ->
  tick c = mkConfig (Failed e) (step c) (tasks c) (state c) w' (stream c).
Proof.
  intros Hst Hne Hlt Hrun. unfold tick. rewrite Hst.
  destruct (tasks c) as [|t ts]; [congruence|].
  apply Nat.leb_gt in Hlt. rewrite Hlt, Hrun. reflexivity.
Qed.

(** C7, as amended.  [generateSummary] makes exactly one client call.  When
    that call throws, the error is what [generateSummary] fails with, and no
    second call is made; when it answers, whatever the content (the empty
    string included), the coerced content is returned as the summary.  A
    step in which a task fails ends the run with the error of that task,
    and publishes nothing. *)
Theorem generateSummary_outcomes (content : string) (w : World) (c : Config) :
  (forall msg s',
      llm_invoke (mapPrompt content) (llm w) = (inl msg, s') ->
      generateSummary content w =
      (inl (UpstreamError msg),
       mkWorld s' (calls w ++ [mapPrompt content])%list)) /\
  (forall answer s',
      llm_invoke (mapPrompt content) (llm w) = (inr answer, s') ->
      generateSummary content w =
      (inr (mkUpdate None (Some [js_String answer]) None None),
       mkWorld s' (calls w ++ [mapPrompt content])%list)) /\
  (forall e w',
      status c = Running -> tasks c <> [] ->
      (step c < recursionLimit)%nat ->
      run_tasks (state c) (tasks c) (world c) = (inl e, w') ->
      status (tick c) = Failed e /\
      state (tick c) = state c /\
      stream (tick c) = stream c).
Proof.
  split; [|split].
  - intros msg s' Hcall.
    unfold generateSummary, bind, llm_call. rewrite Hcall. reflexivity.
  - intros answer s' Hcall.
    unfold generateSummary, bind, llm_call. rewrite Hcall. reflexivity.
  - intros e w' Hst Hne Hlt Hrun.
    rewrite (tick_task_failure c e w' Hst Hne Hlt Hrun). simpl. auto.
Qed.

(** ** Collapsing step *)

Lemma reduced_in_order_length (docLists : list (list Document))
      (w w' : World) (results : list Document) :
  reduced_in_order docLists w results w' ->
  List.length results = List.length docLists.
Proof.
  induction 1 as [|docList rest w w1 w2 collapsed results _ _ IH]; simpl.
  - reflexivity.
  - now rewrite IH.
Qed.

Lemma collapse_loop_sound (rest : list (list Document)) :
  forall (acc results : list Document) (w w' : World),
    collapse_loop rest acc w = (inr results, w') ->
    exists more,
      results = (acc ++ more)%list /\ reduced_in_order rest w more w'.
Proof.
  induction rest as [|docList rest IH]; intros acc results w w' H; simpl in H.
  - unfold ret in H. injection H as <- <-.
    exists []. split; [now rewrite app_nil_r|constructor].
  - apply bind_inr in H. destruct H as (collapsed & w1 & Hone & Hrest).
    apply IH in Hrest. destruct Hrest as (more & -> & Hmore).
    exists (collapsed :: more). split.
    + now rewrite <- app_assoc.
    + econstructor; eassumption.
Qed.

Lemma collapse_loop_complete (rest : list (list Document))
      (more : list Document) (w w' : World) :
  reduced_in_order rest w more w' ->
  forall acc : list Document,
    collapse_loop rest acc w = (inr (acc ++ more)%list, w').
Proof.
  induction 1 as [w|docList rest w w1 w2 collapsed results Hone _ IH];
    intro acc; simpl.
  - now rewrite app_nil_r.
  - unfold bind. rewrite Hone, IH. now rewrite <- app_assoc.
Qed.

(** When every call of [collapseDocs] succeeds, so does the step. *)
Lemma collapseSummaries_complete (state : OverallState) (w w' : World)
      (results : list Document) :
  reduced_in_order
    (splitListOfDocs (collapsedSummaries state) lengthFunction_async tokenMax)
    w results w' ->
  collapseSummaries state w = (inr (collapsed_update results), w').
Proof.
  intro H. unfold collapseSummaries, bind.
  rewrite (collapse_loop_complete _ _ _ _ H []). reflexivity.
Qed.

(** C4.  A collapsing step that succeeds replaces the working set by one
    merged unit per sub-list of the partition, the merged units standing in
    the order of the sub-lists that produced them: the i-th unit is what
    [collapseDocs] returned for the i-th sub-list. *)
Theorem collapse_preserves_order (state : OverallState) (w w' : World)
        (u : Update) :
  collapseSummaries state w = (inr u, w') ->
  exists results,
    u = collapsed_update results /\
    collapsedSummaries (apply_update state u) = results /\
    List.length results =
    List.length
      (splitListOfDocs (collapsedSummaries state) lengthFunction_async tokenMax) /\
    reduced_in_order
      (splitListOfDocs (collapsedSummaries state) lengthFunction_async tokenMax)
      w results w'.
Proof.
  unfold collapseSummaries. intro H.
  apply bind_inr in H. destruct H as (results & w1 & Hloop & Hret).
  unfold ret in Hret. injection Hret as <- <-.
  apply collapse_loop_sound in Hloop.
  destruct Hloop as (more & -> & Hmore). simpl in *.
  exists more. repeat split; try assumption.
  eapply reduced_in_order_length; eassumption.
Qed.

Lemma collapseSummaries_update (state : OverallState) (w w' : World)
      (u : Update) :
  collapseSummaries state w = (inr u, w') ->
  exists results, u = collapsed_update results.
Proof.
  unfold collapseSummaries. intro H.
  apply bind_inr in H. destruct H as (results & w1 & _ & Hret).
  unfold ret in Hret. injection Hret as <- <-. now exists results.
Qed.

(** ** Frame of the nodes *)

(** C10.  Each of the three nodes writes its own channel and no other: the
    update returned by [collectSummaries] and by [collapseSummaries] has the
    single entry [collapsedSummaries], and applying it leaves [contents],
    [summaries] and [finalSummary] as they were; the update returned by
    [generateFinalSummary] has the single entry [finalSummary], and applying
    it leaves [contents], [summaries] and [collapsedSummaries] as they
    were. *)
Theorem nodes_write_own_channel (st : OverallState) (w w' : World)
        (u : Update) :
  (collectSummaries st w = (inr u, w') \/
   collapseSummaries st w = (inr u, w') ->
   (exists v, u = collapsed_update v) /\
   contents (apply_update st u) = contents st /\
   summaries (apply_update st u) = summaries st /\
   finalSummary (apply_update st u) = finalSummary st) /\
  (generateFinalSummary st w = (inr u, w') ->
   (exists s, u = final_update s) /\
   contents (apply_update st u) = contents st /\
   summaries (apply_update st u) = summaries st /\
   collapsedSummaries (apply_update st u) = collapsedSummaries st).
Proof.
  split.
  - intros [H|H].
    + unfold collectSummaries, ret in H. injection H as <- <-.
      split; [eexists; reflexivity|]. now repeat split.
    + apply collapseSummaries_update in H.
      destruct H as (v & ->). split; [now exists v|]. now repeat split.
  - intro H. unfold generateFinalSummary in H.
    apply bind_inr in H. destruct H as (s & w1 & _ & Hret).
    unfold ret in Hret. injection Hret as <- <-.
    split; [now exists s|]. now repeat split.
Qed.

(** ** Continuation predicate *)

Lemma shouldCollapse_collapse (st : OverallState) :
  shouldCollapse st = N_collapseSummaries <->
  lengthFunction (collapsedSummaries st) > tokenMax.
Proof.
  unfold shouldCollapse.
  destruct (lengthFunction (collapsedSummaries st) >? tokenMax) eqn:Hgt.
  - apply Z.gtb_gt in Hgt. now split.
  - split; [discriminate|]. intro H. apply Z.gtb_gt in H. congruence.
Qed.

Lemma shouldCollapse_finalize (st : OverallState) :
  shouldCollapse st = N_generateFinalSummary <->
  lengthFunction (collapsedSummaries st) <= tokenMax.
Proof.
  unfold shouldCollapse.
  destruct (lengthFunction (collapsedSummaries st) >? tokenMax) eqn:Hgt.
  - apply Z.gtb_gt in Hgt. split; [discriminate|lia].
  - split; [|reflexivity]. intros _.
    destruct (Z_le_gt_dec (lengthFunction (collapsedSummaries st)) tokenMax)
      as [Hle|Hbig]; [exact Hle|].
    apply Z.gtb_gt in Hbig. congruence.
Qed.

Lemma branch_collapse_only_over_budget (st : OverallState) :
  In Task_collapseSummaries (branch_target (shouldCollapse st)) ->
  lengthFunction (collapsedSummaries st) > tokenMax.
Proof.
  intro H. apply shouldCollapse_collapse.
  destruct (shouldCollapse st); simpl in H;
    try contradiction; try reflexivity.
  destruct H as [H|[]]. discriminate.
Qed.

Lemma branch_target_cases (st : OverallState) :
  branch_target (shouldCollapse st) = [Task_collapseSummaries] \/
  branch_target (shouldCollapse st) = [Task_generateFinalSummary].
Proof.
  unfold shouldCollapse. destruct (_ >? tokenMax); simpl; auto.
Qed.

(** ** Steps of the runtime *)

Lemma count_node_app (n : Node) (a b : list Chunk) :
  count_node n (a ++ b) = (count_node n a + count_node n b)%nat.
Proof.
  unfold count_node. now rewrite filter_app, length_app.
Qed.

Lemma count_node_other (n m : Node) (s : list Chunk) :
  Forall (fun ch => fst ch = m) s -> Node_eqb m n = false ->
  count_node n s = 0%nat.
Proof.
  intros Hall Hne. unfold count_node.
  induction Hall as [|ch s Hch _ IH]; simpl.
  - reflexivity.
  - rewrite Hch, Hne. exact IH.
Qed.

Lemma run_tasks_fanout (st : OverallState) (inputs : list string) :
  forall (w w' : World) (chunks : list Chunk),
    run_tasks st (map Task_generateSummary inputs) w = (inr chunks, w') ->
    Forall (fun ch => fst ch = N_generateSummary) chunks.
Proof.
  induction inputs as [|content inputs IH]; intros w w' chunks H; simpl in H.
  - unfold ret in H. injection H as <- _. constructor.
  - apply bind_inr in H. destruct H as (u & w1 & _ & H).
    apply bind_inr in H. destruct H as (us & w2 & Hrest & Hret).
    unfold ret in Hret. injection Hret as <- _.
    constructor; [reflexivity|]. eapply IH; eassumption.
Qed.

Lemma run_tasks_single (st : OverallState) (t : Task) (w w' : World)
      (chunks : list Chunk) :
  run_tasks st [t] w = (inr chunks, w') ->
  exists u, run_task st t w = (inr u, w') /\ chunks = [(task_node t, u)].
Proof.
  simpl. intro H.
  apply bind_inr in H. destruct H as (u & w1 & Hrun & H).
  unfold bind, ret in H. injection H as <- <-.
  now exists u.
Qed.

Lemma dedup_fanout (content : string) (inputs : list string) :
  dedup (map task_node (map Task_generateSummary (content :: inputs))) =
  [N_generateSummary].
Proof.
  revert content.
  induction inputs as [|next inputs IH]; intro content.
  - reflexivity.
  - change (dedup (N_generateSummary ::
              map task_node (map Task_generateSummary (next :: inputs))) =
            [N_generateSummary]).
    cbn [dedup]. simpl existsb. apply IH.
Qed.

Lemma generateFinalSummary_inr (st : OverallState) (w w' : World)
      (u : Update) :
  generateFinalSummary st w = (inr u, w') ->
  exists s, u = final_update s /\
            _reduce (collapsedSummaries st) w = (inr s, w').
Proof.
  unfold generateFinalSummary. intro H.
  apply bind_inr in H. destruct H as (s & w1 & Hred & Hret).
  unfold ret in Hret. injection Hret as <- <-.
  now exists s.
Qed.

Lemma collect_or_collapse_update (st : OverallState) (t : Task)
      (w w' : World) (u : Update) :
  t = Task_collectSummaries \/ t = Task_collapseSummaries ->
  run_task st t w = (inr u, w') ->
  exists v, u = collapsed_update v.
Proof.
  intros [->| ->] H; simpl in H.
  - unfold collectSummaries, ret in H. injection H as <- _.
    eexists. reflexivity.
  - eapply collapseSummaries_update. eassumption.
Qed.

Lemma tick_terminal (c : Config) : status c <> Running -> tick c = c.
Proof.
  unfold tick. destruct (status c); [congruence| |]; reflexivity.
Qed.

Lemma iter_tick_terminal (n : nat) (c : Config) :
  status c <> Running -> Nat.iter n tick c = c.
Proof.
  intro H. induction n as [|n IH]; simpl.
  - reflexivity.
  - rewrite IH. now apply tick_terminal.
Qed.

(** After a step, only a terminal configuration or one more step. *)
Lemma tick_progress (c : Config) :
  status (tick c) <> Running \/
  (status (tick c) = Running /\ step (tick c) = S (step c) /\
   (step c < recursionLimit)%nat).
Proof.
  unfold tick. destruct (status c) eqn:Hst.
  - destruct (tasks c) as [|t ts].
    + left. simpl. discriminate.
    + destruct (recursionLimit <=? step c)%nat eqn:Hcap.
      * left. simpl. discriminate.
      * apply Nat.leb_gt in Hcap.
        destruct (run_tasks (state c) (t :: ts) (world c)) as [[e|chunks] w'].
        -- left. simpl. discriminate.
        -- right. simpl. auto.
  - left. rewrite Hst. discriminate.
  - left. rewrite Hst. discriminate.
Qed.

(** The run halts: once the step counter is within [k] of the limit,
    [k + 1] more steps reach a terminal configuration. *)
Lemma halts_within (k : nat) :
  forall c : Config,
    (recursionLimit <= step c + k)%nat ->
    status (Nat.iter (S k) tick c) <> Running.
Proof.
  induction k as [|k IH]; intros c Hk.
  - simpl. destruct (tick_progress c) as [Hdone|(_ & _ & Hlt)];
      [exact Hdone|lia].
  - rewrite Nat.iter_succ_r.
    destruct (tick_progress c) as [Hdone|(_ & Hs & _)].
    + rewrite iter_tick_terminal; assumption.
    + apply IH. lia.
Qed.

(** ** The invariant of a run *)

Lemma start_inv (input : list string) (w : World) :
  Inv input w (start input w).
Proof.
  unfold Inv, start. simpl.
  split; [lia|]. split; [unfold count_node; simpl; lia|]. split.
  - unfold mapSummaries. simpl. intro H.
    apply in_map_iff in H. destruct H as (content & Hc & _). discriminate.
  - apply Ph_fanout; reflexivity.
Qed.

Lemma count_node_single_le (n : Node) (ch : Chunk) :
  (count_node n [ch] <= 1)%nat.
Proof.
  unfold count_node. simpl. destruct (Node_eqb (fst ch) n); simpl; lia.
Qed.

Lemma tick_inv (input : list string) (w : World) (c : Config) :
  Inv input w c -> Inv input w (tick c).
Proof.
  intros (Hstep & Hcount & Hcost & Hphase).
  destruct (status c) eqn:Hst.
  2, 3: rewrite tick_terminal by congruence; unfold Inv; auto.
  assert (Hnofinal : tasks c <> [] ->
                     count_node N_generateFinalSummary (stream c) = 0%nat).
  { intro Hne. destruct Hphase as [_ _ Hs _ _|_ _ Hz|_ Hnil _| Hd _ _ _ _ _
                                  |Hd _ _ _|e w0 Hd _ _]; try congruence.
    rewrite Hs. reflexivity. }
  unfold tick. rewrite Hst.
  destruct (tasks c) as [|t ts] eqn:Hts.
  - (* nothing pending: the run is done *)
    unfold Inv. simpl.
    split; [exact Hstep|]. split; [exact Hcount|]. split; [contradiction|].
    destruct Hphase as [_ Htasks Hs Hw Hf|_ Hcases _|_ _ Hfin| Hd _ _ _ _ _
                       |Hd _ _ _|e w0 Hd _ _]; try congruence.
    + apply Ph_empty; simpl; try assumption; try reflexivity.
      rewrite Hts in Htasks. symmetry in Htasks.
      now apply map_eq_nil in Htasks.
    + rewrite Hts in Hcases. destruct Hcases as [H|[H|H]]; discriminate.
    + apply Ph_finished; simpl; auto.
  - destruct (recursionLimit <=? step c)%nat eqn:Hcap.
    + (* the limit is reached with work pending *)
      apply Nat.leb_le in Hcap.
      unfold Inv. simpl.
      split; [exact Hstep|]. split; [exact Hcount|].
      split; [exact Hcost|].
      apply Ph_capped; simpl; try reflexivity.
      * lia.
      * discriminate.
      * apply Hnofinal. discriminate.
    + apply Nat.leb_gt in Hcap.
      destruct (run_tasks (state c) (t :: ts) (world c))
        as [[e|chunks] w'] eqn:Hrun.
      * (* a task failed *)
        unfold Inv. simpl.
        split; [exact Hstep|]. split; [exact Hcount|].
        split; [exact Hcost|].
        apply (Ph_task_failed _ _ _ e (world c)); simpl; try reflexivity.
        -- exact Hrun.
        -- apply Hnofinal. discriminate.
      * (* the step succeeded *)
        assert (Hnf : count_node N_generateFinalSummary (stream c) = 0%nat)
          by (apply Hnofinal; discriminate).
        destruct Hphase as [_ Htasks _ _ _|_ Hcases _|_ Hnil _| Hd _ _ _ _ _
                           |Hd _ _ _|e w0 Hd _ _]; try congruence.
        -- (* fan-out of the chunk summaries *)
           rewrite Hts in Htasks.
           destruct input as [|content inputs]; [discriminate|].
           rewrite Htasks in *.
           pose proof (run_tasks_fanout _ _ _ _ _ Hrun) as Hall.
           unfold Inv, next_tasks. rewrite dedup_fanout. simpl.
           rewrite !count_node_app.
           rewrite (count_node_other N_collapseSummaries _ _ Hall eq_refl).
           split; [lia|]. split; [lia|]. split.
           ++ intros [H|[]]. discriminate.
           ++ apply Ph_loop; simpl; auto.
              rewrite count_node_app, Hnf.
              now rewrite (count_node_other N_generateFinalSummary _ _ Hall eq_refl).
        -- (* one node of the loop *)
           rewrite Hts in Hcases.
           assert (Hone : ts = []) by (destruct Hcases as [H|[H|H]]; congruence).
           subst ts.
           apply run_tasks_single in Hrun.
           destruct Hrun as (u & Hrun & ->).
           unfold Inv, next_tasks. simpl.
           rewrite !count_node_app.
           split; [lia|]. split.
           { apply Nat.le_trans with (step c + 1)%nat; [|lia].
             apply Nat.add_le_mono;
               [exact Hcount|apply count_node_single_le]. }
           destruct Hcases as [Ht|[Ht|Ht]]; injection Ht as ->.
           ++ destruct (collect_or_collapse_update _ _ _ _ _ (or_introl eq_refl) Hrun)
                as (v & ->).
              unfold edges_from. simpl. rewrite ?app_nil_r. split.
              ** apply branch_collapse_only_over_budget.
              ** apply Ph_loop; simpl.
                 --- reflexivity.
                 --- rewrite ?app_nil_r.
                     destruct (branch_target_cases
                                 (apply_update (state c) (collapsed_update v)));
                       auto.
                 --- rewrite count_node_app, Hnf. reflexivity.
           ++ destruct (collect_or_collapse_update _ _ _ _ _ (or_intror eq_refl) Hrun)
                as (v & ->).
              unfold edges_from. simpl. rewrite ?app_nil_r. split.
              ** apply branch_collapse_only_over_budget.
              ** apply Ph_loop; simpl.
                 --- reflexivity.
                 --- rewrite ?app_nil_r.
                     destruct (branch_target_cases
                                 (apply_update (state c) (collapsed_update v)));
                       auto.
                 --- rewrite count_node_app, Hnf. reflexivity.
           ++ simpl in Hrun. apply generateFinalSummary_inr in Hrun.
              destruct Hrun as (s & -> & Hred).
              unfold edges_from. simpl. split; [contradiction|].
              apply Ph_finished; simpl; auto.
              exists s, (stream c), (world c). simpl.
              repeat split; try assumption.
              eapply reduce_inr. eassumption.
Qed.

Lemma reachable_inv (input : list string) (w : World) (n : nat) :
  Inv input w (Nat.iter n tick (start input w)).
Proof.
  induction n as [|n IH]; simpl.
  - apply start_inv.
  - now apply tick_inv.
Qed.

Lemma driver_loop_app (s : list Chunk) (ch : Chunk) :
  driver_loop (s ++ [ch]) = driver_step (driver_loop s) ch.
Proof.
  unfold driver_loop. now rewrite fold_left_app.
Qed.

Lemma tick_after_router (c : Config) :
  status c = Running ->
  tasks c = [Task_collectSummaries] \/ tasks c = [Task_collapseSummaries] ->
  status (tick c) = Running ->
  tasks (tick c) = branch_target (shouldCollapse (state (tick c))).
Proof.
  intros Hst Htasks. unfold tick. rewrite Hst.
  assert (Hone : exists t, tasks c = [t] /\
                           (t = Task_collectSummaries \/
                            t = Task_collapseSummaries)).
  { destruct Htasks as [H|H]; eexists; split; eauto. }
  destruct Hone as (t & -> & Ht).
  destruct (recursionLimit <=? step c)%nat; [discriminate|].
  destruct (run_tasks (state c) [t] (world c)) as [[e|chunks] w'] eqn:Hrun;
    [discriminate|].
  intros _. simpl.
  apply run_tasks_single in Hrun. destruct Hrun as (u & _ & ->).
  unfold next_tasks. simpl. rewrite app_nil_r.
  destruct Ht as [-> | ->]; reflexivity.
Qed.

(** C1.  The continuation predicate: [shouldCollapse] names
    [collapseSummaries] exactly when the total cost of the working set is
    strictly greater than [tokenMax], and [generateFinalSummary] otherwise
    (equality included).  It is the router of the conditional edges leaving
    both [collectSummaries] and [collapseSummaries], so a step that ran either
    of them schedules what the predicate says of the new working set: the
    predicate is evaluated again after every collapsing step; after such a
    step a collapsing step is what is scheduled exactly when the new working
    set is over the budget, and the final summary exactly when it is within
    the budget.  And in no configuration of a run is a collapsing step
    pending while the working set is within the budget. *)
Theorem continuation_predicate (st : OverallState) (c : Config)
        (input : list string) (w : World) (n : nat) :
  (shouldCollapse st = N_collapseSummaries <->
   lengthFunction (collapsedSummaries st) > tokenMax) /\
  (shouldCollapse st = N_generateFinalSummary <->
   lengthFunction (collapsedSummaries st) <= tokenMax) /\
  conditional_edge N_collectSummaries = Some shouldCollapse /\
  conditional_edge N_collapseSummaries = Some shouldCollapse /\
  (status c = Running ->
   tasks c = [Task_collectSummaries] \/ tasks c = [Task_collapseSummaries] ->
   status (tick c) = Running ->
   tasks (tick c) = branch_target (shouldCollapse (state (tick c)))) /\
  (status c = Running ->
   tasks c = [Task_collectSummaries] \/ tasks c = [Task_collapseSummaries] ->
   status (tick c) = Running ->
   (tasks (tick c) = [Task_collapseSummaries] <->
    lengthFunction (collapsedSummaries (state (tick c))) > tokenMax) /\
   (tasks (tick c) = [Task_generateFinalSummary] <->
    lengthFunction (collapsedSummaries (state (tick c))) <= tokenMax)) /\
  (lengthFunction
     (collapsedSummaries (state (Nat.iter n tick (start input w)))) <= tokenMax ->
   ~ In Task_collapseSummaries (tasks (Nat.iter n tick (start input w)))).
Proof.
  split; [apply shouldCollapse_collapse|].
  split; [apply shouldCollapse_finalize|].
  split; [reflexivity|]. split; [reflexivity|].
  split; [apply tick_after_router|]. split.
  - intros Hst Htasks Hrun.
    rewrite (tick_after_router c Hst Htasks Hrun).
    pose proof (shouldCollapse_collapse (state (tick c))) as Hover.
    pose proof (shouldCollapse_finalize (state (tick c))) as Hfit.
    destruct (shouldCollapse (state (tick c))) eqn:Hroute; simpl.
    + unfold shouldCollapse in Hroute.
      destruct (_ >? tokenMax); discriminate.
    + unfold shouldCollapse in Hroute.
      destruct (_ >? tokenMax); discriminate.
    + split.
      * split; [intros _; now apply Hover|reflexivity].
      * split; [discriminate|].
        intro Hle. assert (Hgt := proj1 Hover eq_refl). lia.
    + split.
      * split; [discriminate|].
        intro Hgt. assert (Hle := proj1 Hfit eq_refl). lia.
      * split; [intros _; now apply Hfit|reflexivity].
  - intros Hle Hin.
    destruct (reachable_inv input w n) as (_ & _ & Hcost & _).
    apply Hcost in Hin. lia.
Qed.

(** C5.  The scheduler terminates: whatever the budget, the input and the
    answers of the client, [recursionLimit + 1] ticks of the runtime reach a
    configuration that further ticks leave as it is.  At most
    [recursionLimit] steps were run, hence at most [recursionLimit]
    collapsing steps, shrinking or not.  The run ends done, or failed with
    [CollapseLimitExceeded] at the limit with work still pending, or failed
    with the error of a task of its last step. *)
Theorem scheduler_terminates (input : list string) (w : World) :
  terminal (app_stream input w) /\
  tick (app_stream input w) = app_stream input w /\
  (forall n, (S recursionLimit <= n)%nat ->
             Nat.iter n tick (start input w) = app_stream input w) /\
  (step (app_stream input w) <= recursionLimit)%nat /\
  (count_node N_collapseSummaries (stream (app_stream input w))
   <= recursionLimit)%nat /\
  (status (app_stream input w) = Done \/
   (status (app_stream input w) = Failed CollapseLimitExceeded /\
    step (app_stream input w) = recursionLimit /\
    tasks (app_stream input w) <> []) \/
   exists e w0,
     status (app_stream input w) = Failed e /\
     run_tasks (state (app_stream input w)) (tasks (app_stream input w)) w0 =
     (inl e, world (app_stream input w))).
Proof.
  assert (Hhalt : status (app_stream input w) <> Running).
  { unfold app_stream. apply halts_within. simpl. lia. }
  destruct (reachable_inv input w (S recursionLimit))
    as (Hstep & Hcount & _ & Hphase).
  fold (app_stream input w) in Hstep, Hcount, Hphase.
  split.
  { unfold terminal. destruct (status (app_stream input w)) as [| |e];
      [congruence|now left|right; now exists e]. }
  split; [now apply tick_terminal|].
  split.
  { intros n Hn. replace n with ((n - S recursionLimit) + S recursionLimit)%nat
      by lia.
    rewrite Nat.iter_add. fold (app_stream input w).
    now apply iter_tick_terminal. }
  split; [exact Hstep|]. split; [lia|].
  destruct Hphase as [Hr _ _ _ _|Hr _ _|[Hr|Hd] _ _|Hd _ _ _ _ _
                     |Hf Hs Hne _|e w0 Hf Hrun _]; try congruence.
  - now left.
  - now left.
  - right. left. auto.
  - right. right. now exists e, w0.
Qed.

(** C8.  With zero chunks [mapSummaries] sends nothing, the run is done at
    once without a step: the stream is empty, the world is the one the run
    started in (no prompt was sent, the client was not invoked), the state
    has no final summary, and the script reports that no final summary was
    produced. *)
Theorem empty_input_short_circuit (w : World) :
  mapSummaries (state (start [] w)) = [] /\
  status (app_stream [] w) = Done /\
  step (app_stream [] w) = 0%nat /\
  stream (app_stream [] w) = [] /\
  world (app_stream [] w) = w /\
  finalSummary (state (app_stream [] w)) = None /\
  run_script [] w = NoFinalSummary.
Proof.
  assert (Hrun : app_stream [] w =
                 mkConfig Done 0 [] (state (start [] w)) w []).
  { unfold app_stream. rewrite Nat.iter_succ_r.
    apply iter_tick_terminal. simpl. discriminate. }
  unfold run_script. rewrite Hrun. simpl. repeat split; reflexivity.
Qed.

Lemma driver_loop_final (pre : list Chunk) (u : Update) :
  d_finalSummary (driver_loop (pre ++ [(N_generateFinalSummary, u)])) = Some u.
Proof.
  rewrite driver_loop_app. reflexivity.
Qed.

Lemma next_after_router (t : Task) (st : OverallState) :
  t = Task_collectSummaries \/ t = Task_collapseSummaries ->
  next_tasks [t] st = branch_target (shouldCollapse st).
Proof.
  intros [-> | ->]; unfold next_tasks; simpl; now rewrite app_nil_r.
Qed.

(** ** The loop of the script against its bookkeeping *)

Lemma script_body_spec (total : nat) (d : Driver) (ch : Chunk) :
  script_body total d ch =
  if showLoadingBar_throws (S (currentStep d)) total
  then inl (count_step d ch)
  else inr (driver_step d ch).
Proof.
  unfold script_body, driver_step, count_step, display, and_then.
  destruct ch as [n u]. destruct n; simpl;
    destruct (showLoadingBar_throws (S (currentStep d)) total); reflexivity.
Qed.

Lemma driver_step_currentStep (d : Driver) (ch : Chunk) :
  currentStep (driver_step d ch) = S (currentStep d).
Proof.
  unfold driver_step. destruct ch as [n u]. destruct n; reflexivity.
Qed.

Lemma fold_driver_currentStep (s : list Chunk) :
  forall d0 : Driver,
    currentStep (fold_left driver_step s d0) =
    (currentStep d0 + List.length s)%nat.
Proof.
  induction s as [|ch s IH]; intro d0; simpl.
  - lia.
  - rewrite IH, driver_step_currentStep. lia.
Qed.

(** The loop ends with the bookkeeping of the whole stream when no display
    call throws, and otherwise stops at the first chunk whose display call
    throws, the chunk counted and nothing assigned. *)
Lemma script_loop_spec (total : nat) (s : list Chunk) :
  forall d0 : Driver,
    match script_loop total d0 s with
    | inr d =>
        d = fold_left driver_step s d0 /\
        (forall i, (1 <= i <= List.length s)%nat ->
                   showLoadingBar_throws (currentStep d0 + i) total = false)
    | inl d =>
        exists pre ch post,
          s = (pre ++ ch :: post)%list /\
          (forall i, (1 <= i <= List.length pre)%nat ->
                     showLoadingBar_throws (currentStep d0 + i) total = false) /\
          showLoadingBar_throws (currentStep d0 + S (List.length pre)) total
            = true /\
          d = count_step (fold_left driver_step pre d0) ch
    end.
Proof.
  induction s as [|ch s IH]; intro d0; simpl.
  - split; [reflexivity|]. intros i Hi. lia.
  - rewrite script_body_spec.
    destruct (showLoadingBar_throws (S (currentStep d0)) total) eqn:Hth.
    + exists [], ch, s. simpl. split; [reflexivity|].
      split; [intros i Hi; lia|]. split; [|reflexivity].
      now rewrite Nat.add_1_r.
    + specialize (IH (driver_step d0 ch)).
      rewrite driver_step_currentStep in IH.
      destruct (script_loop total (driver_step d0 ch) s) as [d|d].
      * destruct IH as (pre & ch' & post & -> & Hok & Hthrow & ->).
        exists (ch :: pre), ch', post. simpl.
        split; [reflexivity|]. split.
        -- intros i Hi. destruct (Nat.eq_dec i 1) as [-> |Hne].
           ++ now rewrite Nat.add_1_r.
           ++ replace (currentStep d0 + i)%nat
                with (S (currentStep d0) + (i - 1))%nat by lia.
              apply Hok. lia.
        -- split; [|reflexivity].
           replace (currentStep d0 + S (S (List.length pre)))%nat
             with (S (currentStep d0) + S (List.length pre))%nat by lia.
           exact Hthrow.
      * destruct IH as [-> Hok]. split; [reflexivity|].
        intros i Hi. destruct (Nat.eq_dec i 1) as [-> |Hne].
        -- now rewrite Nat.add_1_r.
        -- replace (currentStep d0 + i)%nat
             with (S (currentStep d0) + (i - 1))%nat by lia.
           apply Hok. lia.
Qed.

Lemma script_loop_completed (total : nat) (s : list Chunk) (d : Driver) :
  script_loop total (mkDriver None 0 0) s = inr d -> d = driver_loop s.
Proof.
  intro H. pose proof (script_loop_spec total s (mkDriver None 0 0)) as Hspec.
  rewrite H in Hspec. now destruct Hspec as [-> _].
Qed.

(** ** The step that writes the final summary *)

Lemma final_step_reached (input : list string) (w : World) (n : nat) :
  tasks (Nat.iter n tick (start input w)) = [] ->
  stream (Nat.iter n tick (start input w)) <> [] ->
  exists m s,
    final_step_from (Nat.iter m tick (start input w))
                    (Nat.iter n tick (start input w)) s.
Proof.
  induction n as [|n IH]; simpl.
  - intros _ Hstream. now contradiction Hstream.
  - pose proof (reachable_inv input w n) as (_ & _ & _ & Hphase).
    remember (Nat.iter n tick (start input w)) as c eqn:Hc.
    destruct (status c) eqn:Hst.
    2, 3: rewrite tick_terminal by congruence; exact IH.
    remember (tick c) as c' eqn:Hc'.
    unfold tick in Hc'. rewrite Hst in Hc'.
    destruct (tasks c) as [|t ts] eqn:Hts.
    + (* the run is declared done: nothing else moves *)
      intros _ Hstream. subst c'. simpl in Hstream.
      destruct (IH eq_refl Hstream) as (m & s & Hfrom).
      exists m, s. exact Hfrom.
    + destruct (recursionLimit <=? step c)%nat.
      { intros Htasks. subst c'. discriminate. }
      destruct (run_tasks (state c) (t :: ts) (world c))
        as [[e|chunks] w'] eqn:Hrun.
      { intros Htasks. subst c'. discriminate. }
      intros Htasks _. subst c'. simpl in Htasks.
      destruct Hphase as [_ Ht _ _ _|_ Hcases Hz|_ Hnil _| Hd _ _ _ _ _
                         |Hd _ _ _|e w0 Hd _ _]; try congruence.
      * (* after the fan-out, collecting is scheduled *)
        rewrite Hts in Ht. destruct input as [|content inputs];
          [discriminate|].
        rewrite Ht in Htasks. unfold next_tasks in Htasks.
        rewrite dedup_fanout in Htasks. discriminate.
      * rewrite Hts in Hcases.
        assert (Hone : ts = []) by (destruct Hcases as [H|[H|H]]; congruence).
        subst ts. apply run_tasks_single in Hrun.
        destruct Hrun as (u & Hrun & ->).
        destruct Hcases as [Ht|[Ht|Ht]]; injection Ht as ->.
        -- (* a router always schedules a node *)
           rewrite (next_after_router _ _ (or_introl eq_refl)) in Htasks.
           simpl in Htasks.
           destruct (branch_target_cases (apply_update (state c) u)) as [H|H];
             rewrite H in Htasks; discriminate.
        -- rewrite (next_after_router _ _ (or_intror eq_refl)) in Htasks.
           simpl in Htasks.
           destruct (branch_target_cases (apply_update (state c) u)) as [H|H];
             rewrite H in Htasks; discriminate.
        -- (* the final step itself *)
           simpl in Hrun. apply generateFinalSummary_inr in Hrun.
           destruct Hrun as (s & -> & Hred).
           exists n, s. rewrite <- Hc. unfold final_step_from. simpl.
           repeat split; try assumption.
           eapply reduce_inr. eassumption.
Qed.

(** C9, as amended.  A run on at least one chunk that ends done has run
    [generateFinalSummary] exactly once, as its last step; that step, started
    in the world the step before it left, made a single [_reduce] call over
    the whole working set, which added exactly one prompt to the log, and
    the string it returned is the [finalSummary] of the state; the last
    chunk of the stream is the update object holding that string.  When the
    loop of the script runs through the stream without a throw of the
    progress display, it holds that update object; and when moreover the run
    ended before the limit and the string is not empty, the text the script
    shows is that string. *)
Theorem final_summary_delivery (input : list string) (w : World) :
  status (app_stream input w) = Done ->
  input <> [] ->
  exists (s : string) (m : nat),
    final_step_from (Nat.iter m tick (start input w)) (app_stream input w) s /\
    finalSummary (state (app_stream input w)) = Some s /\
    count_node N_generateFinalSummary (stream (app_stream input w)) = 1%nat /\
    (forall d,
        script_loop (totalSteps input) (mkDriver None 0 0)
                    (stream (app_stream input w)) = inr d ->
        d_finalSummary d = Some (final_update s)) /\
    (forall d,
        script_loop (totalSteps input) (mkDriver None 0 0)
                    (stream (app_stream input w)) = inr d ->
        (step (app_stream input w) < recursionLimit)%nat ->
        truthy s = true ->
        run_script input w = Shown s).
Proof.
  intros Hdone Hne.
  destruct (reachable_inv input w (S recursionLimit)) as (_ & _ & _ & Hphase).
  fold (app_stream input w) in Hphase.
  destruct Hphase as [Hr _ _ _ _|Hr _ _|_ Hnil Hfin|_ Hempty _ _ _ _
                     |Hf _ _ _|e w0 Hf _ _]; try congruence.
  assert (Hstream : stream (app_stream input w) <> []).
  { destruct Hfin as (s & pre & w0 & Hstr & _). rewrite Hstr.
    intro H. apply app_eq_nil in H. destruct H as [_ H]. discriminate. }
  destruct (final_step_reached input w (S recursionLimit) Hnil Hstream)
    as (m & s & Hfrom).
  fold (app_stream input w) in Hfrom.
  exists s, m. split; [exact Hfrom|].
  destruct Hfrom as (_ & _ & Hz & _ & _ & Hstate & Hstr).
  assert (Hheld : forall d,
             script_loop (totalSteps input) (mkDriver None 0 0)
                         (stream (app_stream input w)) = inr d ->
             d_finalSummary d = Some (final_update s)).
  { intros d Hloop. apply script_loop_completed in Hloop. subst d.
    rewrite Hstr. apply driver_loop_final. }
  split; [now rewrite Hstate|]. split.
  { rewrite Hstr, count_node_app, Hz. reflexivity. }
  split; [exact Hheld|].
  intros d Hloop _ Htruthy. unfold run_script.
  rewrite Hloop, Hdone, (Hheld d Hloop).
  unfold summaryText. simpl. now rewrite Htruthy.
Qed.

(** * Further properties of the code *)

(** ** Estimator and router *)

Lemma sum_of_costs_permutation (a b : list Document) :
  Permutation a b -> sum_of_costs a = sum_of_costs b.
Proof.
  induction 1 as [|x l l' _ IH|x y l|l l' l'' _ IH1 _ IH2]; simpl; lia.
Qed.

(** X1.  The total cost does not depend on the order of the units: two
    lists that are permutations of each other have the same total. *)
Theorem lengthFunction_permutation (a b : list Document) :
  Permutation a b -> lengthFunction a = lengthFunction b.
Proof.
  intro H. rewrite !lengthFunction_sum. now apply sum_of_costs_permutation.
Qed.

(** X2.  Once a working set is over the budget, adding units to it, at
    either end, never turns the decision back to the final summary. *)
Theorem shouldCollapse_monotone (st : OverallState)
        (before after : list Document) :
  shouldCollapse st = N_collapseSummaries ->
  shouldCollapse
    (mkState (contents st) (summaries st)
             (before ++ collapsedSummaries st ++ after)%list
             (finalSummary st)) = N_collapseSummaries.
Proof.
  intro H. apply shouldCollapse_collapse in H.
  apply shouldCollapse_collapse. simpl.
  rewrite !lengthFunction_app.
  pose proof (lengthFunction_nonneg before).
  pose proof (lengthFunction_nonneg after). lia.
Qed.

(** ** Collecting *)

Lemma lengthFunction_wrapped (l : list string) :
  lengthFunction (map (fun summary => mkDocument summary) l) = total_length l.
Proof.
  induction l as [|s l IH]; simpl.
  - reflexivity.
  - rewrite lengthFunction_cons, IH. reflexivity.
Qed.

(** X3.  [collectSummaries] never fails and never touches the client; the
    working set it writes holds the summaries in their order, one document
    per summary with the summary as its content, so the cost of the working
    set is the total length of the summaries. *)
Theorem collectSummaries_wraps_summaries (st : OverallState) (w : World) :
  exists v,
    collectSummaries st w = (inr (collapsed_update v), w) /\
    map pageContent v = summaries st /\
    List.length v = List.length (summaries st) /\
    lengthFunction v = total_length (summaries st).
Proof.
  exists (map (fun summary => mkDocument summary) (summaries st)).
  split; [reflexivity|]. split.
  - rewrite map_map. simpl. apply map_id.
  - split; [apply length_map|apply lengthFunction_wrapped].
Qed.

(** ** Fan-out *)

Lemma fold_summary_updates (answers : list string) :
  forall st : OverallState,
    fold_left apply_update (map summary_update answers) st =
    mkState (contents st) (summaries st ++ answers)%list
            (collapsedSummaries st) (finalSummary st).
Proof.
  induction answers as [|s answers IH]; intro st; simpl.
  - rewrite app_nil_r. now destruct st.
  - rewrite IH. simpl. now rewrite <- app_assoc.
Qed.

Lemma run_fanout (st : OverallState) (inputs : list string) :
  forall (w w' : World) (chunks : list Chunk),
    run_tasks st (map Task_generateSummary inputs) w = (inr chunks, w') ->
    map fst chunks = repeat N_generateSummary (List.length inputs) /\
    calls w' = (calls w ++ map mapPrompt inputs)%list /\
    exists answers,
      List.length answers = List.length inputs /\
      map snd chunks = map summary_update answers.
Proof.
  induction inputs as [|content inputs IH]; intros w w' chunks H; simpl in H.
  - unfold ret in H. injection H as <- <-. simpl.
    split; [reflexivity|]. split; [now rewrite app_nil_r|].
    now exists [].
  - apply bind_inr in H. destruct H as (u & w1 & Hone & H).
    apply bind_inr in H. destruct H as (us & w2 & Hrest & Hret).
    unfold ret in Hret. injection Hret as <- <-.
    apply IH in Hrest. destruct Hrest as (Hnodes & Hcalls & answers & Hlen & Hsnd).
    unfold generateSummary in Hone.
    apply bind_inr in Hone. destruct Hone as (response & w0 & Hcall & Hret).
    apply llm_call_inr in Hcall. destruct Hcall as [_ Hlog].
    unfold ret in Hret. injection Hret as <- <-.
    simpl. split; [now rewrite Hnodes|]. split.
    + rewrite Hcalls, Hlog, <- app_assoc. reflexivity.
    + exists (js_String response :: answers). simpl.
      split; [now rewrite Hlen|now rewrite Hsnd].
Qed.

(** X4.  Coverage of the fan-out: when the step that runs what
    [mapSummaries] sent succeeds, it has made exactly one client call per
    chunk, with the prompts of the chunks in their order, it has streamed
    one [generateSummary] chunk per input chunk, and the concatenating
    channel has grown by exactly one summary per chunk. *)
Theorem fanout_covers_every_chunk (st : OverallState) (w w' : World)
        (chunks : list Chunk) :
  run_tasks st (mapSummaries st) w = (inr chunks, w') ->
  map fst chunks = repeat N_generateSummary (List.length (contents st)) /\
  calls w' = (calls w ++ map mapPrompt (contents st))%list /\
  exists answers,
    List.length answers = List.length (contents st) /\
    summaries (fold_left apply_update (map snd chunks) st) =
      (summaries st ++ answers)%list /\
    contents (fold_left apply_update (map snd chunks) st) = contents st.
Proof.
  unfold mapSummaries. intro H.
  apply run_fanout in H. destruct H as (Hnodes & Hcalls & answers & Hlen & Hsnd).
  split; [exact Hnodes|]. split; [exact Hcalls|].
  exists answers. rewrite Hsnd, fold_summary_updates. simpl. auto.
Qed.

(** ** Collapsing: failure *)

Lemma collapse_loop_fails (pre : list (list Document))
      (merged : list Document) (w w1 : World) :
  reduced_in_order pre w merged w1 ->
  forall (docList : list Document) (post : list (list Document))
         (w' : World) (e : Error) (acc : list Document),
    collapseDocs docList _reduce w1 = (inl e, w') ->
    collapse_loop (pre ++ docList :: post) acc w = (inl e, w').
Proof.
  induction 1 as [w|first rest w w1 w2 collapsed results Hone _ IH];
    intros docList post w' e acc Hfail; simpl.
  - unfold bind. now rewrite Hfail.
  - unfold bind. rewrite Hone. now apply IH.
Qed.

(** X5.  A collapsing step stops at the first sub-list whose merge fails:
    the step fails with that error in the world the failing call left, the
    sub-lists after it are not merged, and no working set is returned. *)
Theorem collapseSummaries_stops_at_first_failure (st : OverallState)
        (w w' : World) (e : Error)
        (pre post : list (list Document)) (docList : list Document) :
  splitListOfDocs (collapsedSummaries st) lengthFunction_async tokenMax =
    (pre ++ docList :: post)%list ->
  fails_after pre docList w w' e ->
  collapseSummaries st w = (inl e, w').
Proof.
  intros Hsplit (merged & w1 & Hpre & Hfail).
  unfold collapseSummaries. rewrite Hsplit. unfold bind.
  now rewrite (collapse_loop_fails _ _ _ _ Hpre _ post _ _ [] Hfail).
Qed.

(** ** The channels *)

(** X6.  The [summaries] channel only grows: whatever updates are applied,
    in whatever number, the summaries held before are a prefix of the
    summaries held after, and what was added is the concatenation of the
    [summaries] entries of the updates, in order. *)
Theorem summaries_append_only (us : list Update) (st : OverallState) :
  summaries (fold_left apply_update us st) =
  (summaries st ++
   flat_map (fun u => match u_summaries u with
                      | Some v => v
                      | None => []
                      end) us)%list.
Proof.
  revert st. induction us as [|u us IH]; intro st; simpl.
  - now rewrite app_nil_r.
  - rewrite IH. simpl. destruct (u_summaries u) as [v|].
    + now rewrite <- app_assoc.
    + reflexivity.
Qed.

(** ** The loop of the driver *)

Lemma driver_step_counts (d : Driver) (ch : Chunk) :
  currentStep (driver_step d ch) = S (currentStep d) /\
  summaryCount (driver_step d ch) =
    (summaryCount d + count_node N_generateSummary [ch])%nat.
Proof.
  unfold driver_step, count_node. simpl.
  destruct (fst ch); simpl; split; lia.
Qed.

Lemma driver_loop_counts (s : list Chunk) :
  currentStep (driver_loop s) = List.length s /\
  summaryCount (driver_loop s) = count_node N_generateSummary s.
Proof.
  induction s as [|ch s IH] using rev_ind.
  - split; reflexivity.
  - rewrite driver_loop_app.
    destruct (driver_step_counts (driver_loop s) ch) as [Hc Hs].
    destruct IH as [IHc IHs].
    rewrite Hc, Hs, IHc, IHs, count_node_app, length_app. simpl.
    split; lia.
Qed.

(** X7.  The counters of the driver: after any stream, [currentStep] is
    the number of chunks received and [summaryCount] the number of
    [generateSummary] chunks among them. *)
Theorem driver_counts_chunks (s : list Chunk) :
  currentStep (driver_loop s) = List.length s /\
  summaryCount (driver_loop s) = count_node N_generateSummary s.
Proof. apply driver_loop_counts. Qed.

Lemma driver_loop_last_final (s : list Chunk) :
  d_finalSummary (driver_loop s) =
    option_map snd
      (find (fun ch => Node_eqb (fst ch) N_generateFinalSummary) (rev s)) /\
  (d_finalSummary (driver_loop s) = None <->
   count_node N_generateFinalSummary s = 0%nat).
Proof.
  induction s as [|ch s [IHlast IHnone]] using rev_ind.
  - split; [reflexivity|]. split; reflexivity.
  - rewrite driver_loop_app, rev_app_distr, count_node_app. simpl.
    unfold driver_step, count_node at 2. simpl.
    destruct (fst ch); simpl.
    + split; [exact IHlast|]. rewrite Nat.add_0_r. exact IHnone.
    + split; [exact IHlast|]. rewrite Nat.add_0_r. exact IHnone.
    + split; [exact IHlast|]. rewrite Nat.add_0_r. exact IHnone.
    + split; [reflexivity|]. split; [discriminate|lia].
Qed.

(** X8.  When the loop of the script has run through a stream without a
    throw of the progress display, what it holds as [finalSummary] is the
    update of the last [generateFinalSummary] chunk of the stream, and
    [null] exactly when the stream has no such chunk. *)
Theorem driver_keeps_last_final_chunk (total : nat) (s : list Chunk)
        (d : Driver) :
  script_loop total (mkDriver None 0 0) s = inr d ->
  d_finalSummary d =
    option_map snd
      (find (fun ch => Node_eqb (fst ch) N_generateFinalSummary) (rev s)) /\
  (d_finalSummary d = None <->
   count_node N_generateFinalSummary s = 0%nat).
Proof.
  intro Hloop. apply script_loop_completed in Hloop. subst d.
  apply driver_loop_last_final.
Qed.

(** X14.  The loop of the script and the progress display: the display
    call on the i-th chunk is made with [currentStep = i].  If none of
    these calls throws, the loop ends with the bookkeeping of the whole
    stream; otherwise it stops at the first chunk whose call throws, with
    that chunk counted and [finalSummary] as it was before the chunk: a
    [generateFinalSummary] chunk on which the display throws is never
    assigned. *)
Theorem script_loop_stops_at_first_throw (total : nat) (s : list Chunk) :
  match script_loop total (mkDriver None 0 0) s with
  | inr d =>
      d = driver_loop s /\
      (forall i, (1 <= i <= List.length s)%nat ->
                 showLoadingBar_throws i total = false)
  | inl d =>
      exists pre ch post,
        s = (pre ++ ch :: post)%list /\
        (forall i, (1 <= i <= List.length pre)%nat ->
                   showLoadingBar_throws i total = false) /\
        showLoadingBar_throws (S (List.length pre)) total = true /\
        currentStep d = S (List.length pre) /\
        d_finalSummary d = d_finalSummary (driver_loop pre)
  end.
Proof.
  pose proof (script_loop_spec total s (mkDriver None 0 0)) as Hspec.
  destruct (script_loop total (mkDriver None 0 0) s) as [d|d].
  - destruct Hspec as (pre & ch & post & Hs & Hok & Hthrow & Hd).
    exists pre, ch, post. simpl in Hok, Hthrow.
    split; [exact Hs|]. split; [exact Hok|]. split; [exact Hthrow|].
    subst d. unfold count_step. simpl.
    rewrite driver_step_currentStep, fold_driver_currentStep.
    split; reflexivity.
  - exact Hspec.
Qed.

(** ** The course of a run *)

Lemma start_course (input : list string) (w : World) :
  Course input w (start input w).
Proof.
  split; [reflexivity|]. apply Sh_fanout; simpl; auto.
Qed.

Lemma collect_step (st : OverallState) (w w' : World) (chunks : list Chunk) :
  run_tasks st [Task_collectSummaries] w = (inr chunks, w') ->
  w' = w /\
  chunks = [(N_collectSummaries,
             collapsed_update
               (map (fun summary => mkDocument summary) (summaries st)))].
Proof.
  simpl. unfold bind, collectSummaries, ret. intro H.
  injection H as <- <-. now split.
Qed.

Lemma collect_never_fails (st : OverallState) (w w' : World) (e : Error) :
  run_tasks st [Task_collectSummaries] w <> (inl e, w').
Proof.
  simpl. unfold bind, collectSummaries, ret. discriminate.
Qed.

Lemma router_outcome (st : OverallState) :
  (branch_target (shouldCollapse st) = [Task_collapseSummaries] /\
   lengthFunction (collapsedSummaries st) > tokenMax) \/
  (branch_target (shouldCollapse st) = [Task_generateFinalSummary] /\
   lengthFunction (collapsedSummaries st) <= tokenMax).
Proof.
  destruct (shouldCollapse st) eqn:Hroute.
  - unfold shouldCollapse in Hroute. destruct (_ >? tokenMax); discriminate.
  - unfold shouldCollapse in Hroute. destruct (_ >? tokenMax); discriminate.
  - left. split; [reflexivity|]. now apply shouldCollapse_collapse.
  - right. split; [reflexivity|]. now apply shouldCollapse_finalize.
Qed.

Lemma tick_course (input : list string) (w : World) (c : Config) :
  Course input w c -> Course input w (tick c).
Proof.
  intros [Hcont Hshape].
  destruct (status c) eqn:Hst.
  2, 3: rewrite tick_terminal by congruence; split; assumption.
  unfold tick. rewrite Hst.
  destruct (tasks c) as [|t ts] eqn:Hts.
  - (* nothing pending *)
    split; [exact Hcont|].
    destruct Hshape as [Hs Ht Hstr Hsum Hfs _|Hs Ht _ _ _ _
                       |k Hs Ht _ _ _ _
                       |k Hs _ _ Hstr Hsum Hcost Hfs Hk].
    + rewrite Hts in Ht. apply Sh_fanout; simpl; auto. discriminate.
    + rewrite Hts in Ht. discriminate.
    + rewrite Hts in Ht. destruct Ht as [[Ht _]|[Ht _]]; discriminate.
    + apply (Sh_final _ _ _ k); simpl; auto.
  - destruct (recursionLimit <=? step c)%nat eqn:Hcap.
    + (* stopped at the limit: nothing moves *)
      split; [exact Hcont|].
      destruct Hshape as [Hs Ht Hstr Hsum Hfs _|Hs Ht Hstr Hsum Hfs _
                         |k Hs Ht Hstr Hsum Hfs Hk
                         |k Hs Ht _ _ _ _ _ _]; rewrite Hts in Ht.
      * apply Sh_fanout; simpl; auto. discriminate.
      * apply Sh_collect; simpl; auto. discriminate.
      * apply (Sh_loop _ _ _ k); simpl; auto.
        intro Hk0. destruct (Hk Hk0) as [Hws _]. split; [exact Hws|discriminate].
      * discriminate.
    + destruct (run_tasks (state c) (t :: ts) (world c))
        as [[e|chunks] w'] eqn:Hrun.
      * (* a task failed: the state stays, the world moves *)
        split; [exact Hcont|].
        destruct Hshape as [Hs Ht Hstr Hsum Hfs _|Hs Ht Hstr Hsum Hfs _
                           |k Hs Ht Hstr Hsum Hfs Hk
                           |k Hs Ht _ _ _ _ _ _]; rewrite Hts in Ht.
        -- apply Sh_fanout; simpl; auto. discriminate.
        -- apply Sh_collect; simpl; auto. discriminate.
        -- apply (Sh_loop _ _ _ k); simpl; auto.
           intro Hk0. destruct (Hk Hk0) as [Hws _].
           split; [exact Hws|discriminate].
        -- discriminate.
      * (* the step succeeded *)
        destruct Hshape as [Hs Ht Hstr Hsum Hfs Hw|Hs Ht Hstr Hsum Hfs Hw
                           |k Hs Ht Hstr Hsum Hfs Hk
                           |k Hs Ht _ _ _ _ _ _]; rewrite Hts in Ht;
          unfold Chunk in *.
        -- (* the fan-out *)
           destruct input as [|content inputs]; [discriminate|].
           rewrite Ht in Hrun. rewrite Ht.
           apply run_fanout in Hrun.
           destruct Hrun as (Hnodes & Hcalls & answers & Hlen & Hsnd).
           unfold next_tasks. rewrite dedup_fanout.
           rewrite Hsnd, fold_summary_updates. simpl.
           split; [exact Hcont|].
           apply Sh_collect; simpl; auto.
           ++ rewrite Hstr. exact Hnodes.
           ++ rewrite Hsum. exact Hlen.
           ++ intros _. now rewrite Hcalls, (Hw Hst).
        -- (* collecting *)
           injection Ht as -> ->.
           apply collect_step in Hrun. destruct Hrun as [-> ->].
           rewrite (next_after_router _ _ (or_introl eq_refl)). simpl.
           split; [exact Hcont|].
           apply (Sh_loop _ _ _ 0); simpl; auto.
           ++ apply router_outcome.
           ++ rewrite map_app, Hstr. reflexivity.
        -- (* a node of the loop *)
           destruct Ht as [[Ht Hbig]|[Ht Hfit]]; injection Ht as -> ->;
             apply run_tasks_single in Hrun; destruct Hrun as (u & Hrun & ->);
             simpl in Hrun.
           ++ (* collapsing *)
              apply collapseSummaries_update in Hrun. destruct Hrun as (v & ->).
              rewrite (next_after_router _ _ (or_intror eq_refl)). simpl.
              split; [exact Hcont|].
              apply (Sh_loop _ _ _ (S k)); simpl; auto.
              ** apply router_outcome.
              ** rewrite map_app, Hstr, <- app_assoc. simpl.
                 now rewrite (List.repeat_cons k N_collapseSummaries).
              ** discriminate.
           ++ (* the final summary *)
              apply generateFinalSummary_inr in Hrun.
              destruct Hrun as (s & -> & Hred).
              unfold next_tasks. simpl.
              split; [exact Hcont|].
              apply (Sh_final _ _ _ k); simpl; auto.
              ** rewrite map_app, Hstr, <- app_assoc. reflexivity.
              ** now exists s.
              ** intro Hk0. destruct (Hk Hk0) as [Hws Hlog].
                 split; [exact Hws|].
                 rewrite (reduce_inr _ _ _ _ Hred), (Hlog Hst).
                 now rewrite <- app_assoc.
        -- discriminate.
Qed.

Lemma reachable_course (input : list string) (w : World) (n : nat) :
  Course input w (Nat.iter n tick (start input w)).
Proof.
  induction n as [|n IH]; simpl.
  - apply start_course.
  - now apply tick_course.
Qed.

Lemma done_has_no_tasks (input : list string) (w : World) (n : nat) :
  status (Nat.iter n tick (start input w)) = Done ->
  tasks (Nat.iter n tick (start input w)) = [].
Proof.
  intro Hdone.
  destruct (reachable_inv input w n) as (_ & _ & _ & Hphase).
  destruct Hphase as [Hr _ _ _ _|Hr _ _|_ Hnil _|_ _ Hnil _ _ _
                     |Hf _ _ _|e w0 Hf _ _]; congruence.
Qed.

Lemma failed_has_tasks (input : list string) (w : World) (n : nat) (e : Error) :
  status (Nat.iter n tick (start input w)) = Failed e ->
  tasks (Nat.iter n tick (start input w)) <> [].
Proof.
  intro Hfail.
  destruct (reachable_inv input w n) as (_ & _ & _ & Hphase).
  destruct Hphase as [Hr _ _ _ _|Hr _ _|[Hr|Hd] _ _|Hd _ _ _ _ _
                     |_ _ Hne _|e' w0 _ Hrun _]; try congruence.
  intro Hnil. rewrite Hnil in Hrun. simpl in Hrun. unfold ret in Hrun.
  discriminate.
Qed.

Lemma count_node_nodes (n : Node) (s : list Chunk) :
  count_node n s =
  List.length (filter (fun m => Node_eqb m n) (map fst s)).
Proof.
  unfold count_node. induction s as [|ch s IH]; simpl.
  - reflexivity.
  - destruct (Node_eqb (fst ch) n); simpl; now rewrite IH.
Qed.

Lemma count_repeat (n a : Node) (k : nat) :
  List.length (filter (fun m => Node_eqb m n) (repeat a k)) =
  if Node_eqb a n then k else 0%nat.
Proof.
  induction k as [|k IH]; simpl.
  - now destruct (Node_eqb a n).
  - destruct (Node_eqb a n); simpl; now rewrite IH.
Qed.

Lemma count_in_course (n : Node) (len k : nat) :
  List.length
    (filter (fun m => Node_eqb m n)
       (repeat N_generateSummary len ++
        N_collectSummaries :: repeat N_collapseSummaries k ++
        [N_generateFinalSummary])) =
  ((if Node_eqb N_generateSummary n then len else 0) +
   (if Node_eqb N_collectSummaries n then 1 else 0) +
   (if Node_eqb N_collapseSummaries n then k else 0) +
   (if Node_eqb N_generateFinalSummary n then 1 else 0))%nat.
Proof.
  rewrite filter_app, length_app, count_repeat.
  change (N_collectSummaries :: repeat N_collapseSummaries k ++
          [N_generateFinalSummary])
    with ([N_collectSummaries] ++ repeat N_collapseSummaries k ++
          [N_generateFinalSummary])%list.
  rewrite !filter_app, !length_app, count_repeat. simpl.
  destruct n; simpl; lia.
Qed.

(** What a run that ended done on at least one chunk went through. *)
Lemma done_course (input : list string) (w : World) :
  status (app_stream input w) = Done ->
  input <> [] ->
  exists k,
    step (app_stream input w) = (3 + k)%nat /\
    map fst (stream (app_stream input w)) =
      (repeat N_generateSummary (List.length input) ++
       N_collectSummaries :: repeat N_collapseSummaries k ++
       [N_generateFinalSummary])%list /\
    List.length (summaries (state (app_stream input w))) =
      List.length input /\
    lengthFunction (collapsedSummaries (state (app_stream input w)))
      <= tokenMax /\
    (k = 0%nat ->
     collapsedSummaries (state (app_stream input w)) =
       map mkDocument (summaries (state (app_stream input w))) /\
     calls (world (app_stream input w)) =
       (calls w ++ map mapPrompt input ++
        [reducePrompt (collapsedSummaries (state (app_stream input w)))])%list).
Proof.
  intros Hdone Hne. unfold app_stream in *.
  pose proof (done_has_no_tasks input w _ Hdone) as Hnil.
  destruct (reachable_course input w (S recursionLimit)) as [_ Hshape].
  destruct Hshape as [_ Ht _ _ _ _|_ Ht _ _ _ _|k _ Ht _ _ _ _
                     |k Hs _ _ Hstr Hsum Hcost _ Hk].
  - rewrite Hnil in Ht. symmetry in Ht. apply map_eq_nil in Ht. contradiction.
  - rewrite Hnil in Ht. discriminate.
  - rewrite Hnil in Ht. destruct Ht as [[Ht _]|[Ht _]]; discriminate.
  - exists k. auto.
Qed.

(** X9.  The course of a successful run on [n >= 1] chunks: the stream
    is [n] chunks of [generateSummary], one of [collectSummaries], some
    number [k] of [collapseSummaries] and one of [generateFinalSummary], in
    that order; the run took [k + 3] steps, so it fits the limit only when
    [k + 3 <= recursionLimit]: the limit must be at least 3, and at most
    [recursionLimit - 3] collapsing steps can precede a final summary. *)
Theorem successful_run_course (input : list string) (w : World) :
  status (app_stream input w) = Done ->
  input <> [] ->
  exists k,
    map fst (stream (app_stream input w)) =
      (repeat N_generateSummary (List.length input) ++
       N_collectSummaries :: repeat N_collapseSummaries k ++
       [N_generateFinalSummary])%list /\
    count_node N_collapseSummaries (stream (app_stream input w)) = k /\
    step (app_stream input w) = (k + 3)%nat /\
    (k + 3 <= recursionLimit)%nat.
Proof.
  intros Hdone Hne.
  destruct (done_course input w Hdone Hne) as (k & Hs & Hstr & _).
  exists k. split; [exact Hstr|]. split.
  - rewrite count_node_nodes. unfold Chunk in *.
    rewrite Hstr, count_in_course. simpl. lia.
  - destruct (reachable_inv input w (S recursionLimit)) as (Hstep & _).
    fold (app_stream input w) in Hstep. lia.
Qed.

(** X10.  No node rewrites the input, and summaries are written by the
    fan-out only: in every configuration of a run the state holds the
    chunks it was started on, and either no summary yet or exactly one
    summary per chunk. *)
Theorem run_keeps_input (input : list string) (w : World) (n : nat) :
  contents (state (Nat.iter n tick (start input w))) = input /\
  (summaries (state (Nat.iter n tick (start input w))) = [] \/
   List.length (summaries (state (Nat.iter n tick (start input w)))) =
     List.length input).
Proof.
  destruct (reachable_course input w n) as [Hcont Hshape].
  split; [exact Hcont|].
  destruct Hshape as [_ _ _ Hsum _ _|_ _ _ Hsum _ _|k _ _ _ Hsum _ _
                     |k _ _ _ _ Hsum _ _ _]; auto.
Qed.

(** X12.  The final reduce call is only ever made over a working set that
    is within the budget: a run that ended done on at least one chunk holds
    a working set of total cost at most [tokenMax]; in particular no run
    succeeds under a negative budget. *)
Theorem final_reduce_within_budget (input : list string) (w : World) :
  status (app_stream input w) = Done ->
  input <> [] ->
  lengthFunction (collapsedSummaries (state (app_stream input w)))
    <= tokenMax /\
  0 <= tokenMax.
Proof.
  intros Hdone Hne.
  destruct (done_course input w Hdone Hne) as (k & _ & _ & _ & Hcost & _).
  split; [exact Hcost|].
  pose proof (lengthFunction_nonneg
                (collapsedSummaries (state (app_stream input w)))). lia.
Qed.

(** X13.  A successful run without a collapsing step takes exactly three
    steps and makes exactly one client call per chunk, in the order of the
    chunks, followed by one reduce call over the working set, which is
    every summary wrapped in its order. *)
Theorem run_without_collapse_calls (input : list string) (w : World) :
  status (app_stream input w) = Done ->
  input <> [] ->
  count_node N_collapseSummaries (stream (app_stream input w)) = 0%nat ->
  step (app_stream input w) = 3%nat /\
  collapsedSummaries (state (app_stream input w)) =
    map mkDocument (summaries (state (app_stream input w))) /\
  calls (world (app_stream input w)) =
    (calls w ++ map mapPrompt input ++
     [reducePrompt
        (map mkDocument (summaries (state (app_stream input w))))])%list.
Proof.
  intros Hdone Hne Hzero.
  destruct (done_course input w Hdone Hne) as (k & Hs & Hstr & _ & _ & Hk).
  assert (Hk0 : k = 0%nat).
  { rewrite count_node_nodes in Hzero. unfold Chunk in *.
    rewrite Hstr, count_in_course in Hzero. simpl in Hzero. lia. }
  subst k. destruct (Hk eq_refl) as [Hws Hcalls].
  split; [exact Hs|]. split; [exact Hws|].
  rewrite Hcalls, Hws. reflexivity.
Qed.

Lemma empty_run (w : World) :
  app_stream [] w = mkConfig Done 0 [] (state (start [] w)) w [].
Proof.
  unfold app_stream. rewrite Nat.iter_succ_r.
  apply iter_tick_terminal. simpl. discriminate.
Qed.

(** X15.  The script ends on its line saying that no final summary was
    produced exactly when it was given no chunk: on at least one chunk it
    either shows a text or throws. *)
Theorem no_summary_line_iff_empty_input (input : list string) (w : World) :
  run_script input w = NoFinalSummary <-> input = [].
Proof.
  split.
  - intro Hnone. destruct input as [|content inputs]; [reflexivity|].
    exfalso. unfold run_script in Hnone.
    destruct (script_loop (totalSteps (content :: inputs)) (mkDriver None 0 0)
                (stream (app_stream (content :: inputs) w)))
      as [thrown|d] eqn:Hloop; [discriminate|].
    apply script_loop_completed in Hloop. subst d.
    assert (Hhalt : status (app_stream (content :: inputs) w) <> Running).
    { unfold app_stream. apply halts_within. simpl. lia. }
    destruct (status (app_stream (content :: inputs) w)) eqn:Hst;
      [congruence| |discriminate].
    destruct (reachable_inv (content :: inputs) w (S recursionLimit))
      as (_ & _ & _ & Hphase).
    fold (app_stream (content :: inputs) w) in Hphase.
    destruct Hphase as [Hr _ _ _ _|Hr _ _|_ _ Hfin|_ Hnil _ _ _ _
                       |Hf _ _ _|e w0 Hf _ _]; try congruence.
    destruct Hfin as (s & pre & w0 & Hstream & _).
    rewrite Hstream, driver_loop_final in Hnone. discriminate.
  - intros ->. unfold run_script. rewrite empty_run. reflexivity.
Qed.

End Pipeline.

(** * Worked examples on concrete clients *)

Local Open Scope string_scope.

Arguments status {LLM Prompt} c.
Arguments step {LLM Prompt} c.
Arguments tasks {LLM Prompt} c.
Arguments state {LLM Prompt} c.
Arguments world {LLM Prompt} c.
Arguments stream {LLM Prompt} c.
Arguments calls {LLM Prompt} w.

Local Abbreviation demo_world := (mkWorld unit string tt []).

Local Abbreviation demo_stream answer budget :=
  (app_stream unit string (const_llm answer) plain_mapPrompt
              plain_reducePrompt budget partition_awaiting
              (collapseDocs_model unit string) recursionLimit_source).

Local Abbreviation demo_script answer budget :=
  (run_script unit string (const_llm answer) plain_mapPrompt
              plain_reducePrompt budget partition_awaiting
              (collapseDocs_model unit string) recursionLimit_source
              JSON_stringify_finalSummary).

(** Five units of cost 6 under a budget of 10: no two fit together. *)
Example partition_five_singletons :
  partition (map mkDocument ["aaaaaa"; "bbbbbb"; "cccccc"; "dddddd"; "eeeeee"])
            lengthFunction 10 =
  [[mkDocument "aaaaaa"]; [mkDocument "bbbbbb"]; [mkDocument "cccccc"];
   [mkDocument "dddddd"]; [mkDocument "eeeeee"]].
Proof. reflexivity. Qed.

(** One oversized unit: a single singleton sub-list. *)
Example partition_oversized_unit :
  partition [mkDocument "an oversized unit"] lengthFunction 10 =
  [[mkDocument "an oversized unit"]].
Proof. reflexivity. Qed.

(** Units are grouped greedily, in order. *)
Example partition_greedy_groups :
  partition (map mkDocument ["aaaaaa"; "bbbbbb"; "cc"; "dd"; "e"])
            lengthFunction 10 =
  [[mkDocument "aaaaaa"]; [mkDocument "bbbbbb"; mkDocument "cc"; mkDocument "dd"];
   [mkDocument "e"]].
Proof. reflexivity. Qed.

(** A working set whose total cost is exactly the budget is not collapsed;
    one unit of cost more and it is. *)
Example shouldCollapse_at_the_budget :
  shouldCollapse 6
    (mkState [] [] [mkDocument "abc"; mkDocument "def"] None) =
  N_generateFinalSummary /\
  shouldCollapse 6
    (mkState [] [] [mkDocument "abc"; mkDocument "defg"] None) =
  N_collapseSummaries.
Proof. split; reflexivity. Qed.

(** Three chunks whose summaries fit the budget: no collapsing step, one
    reduce call over the three summaries. *)
Example run_without_collapse :
  let run := demo_stream (ContentText "abc") tokenMax_source ["x"; "y"; "z"] demo_world in
  status run = Done /\
  step run = 3%nat /\
  map fst (stream run) =
    [N_generateSummary; N_generateSummary; N_generateSummary;
     N_collectSummaries; N_generateFinalSummary] /\
  calls (world run) = ["x"; "y"; "z"; "abc,abc,abc"] /\
  finalSummary (state run) = Some "abc".
Proof. vm_compute. repeat split; reflexivity. Qed.

(** A client whose answers never fit the budget: the run stops at the
    limit, after eight collapsing steps that did not shrink anything. *)
Example run_hits_the_limit :
  let run := demo_stream (ContentText "abcdefgh") 5 ["x"] demo_world in
  status run = Failed CollapseLimitExceeded /\
  step run = 10%nat /\
  count_node N_collapseSummaries (stream run) = 8%nat /\
  finalSummary (state run) = None.
Proof. vm_compute. repeat split; reflexivity. Qed.

(** A failing client: the first chunk summary fails the run. *)
Example run_with_failing_client :
  app_stream unit string (failing_llm "quota") plain_mapPrompt
             plain_reducePrompt tokenMax_source partition_awaiting
             (collapseDocs_model unit string) recursionLimit_source
             ["x"; "y"; "z"] demo_world =
  mkConfig unit string (Failed (UpstreamError "quota")) 0%nat
           [Task_generateSummary "x"; Task_generateSummary "y";
            Task_generateSummary "z"]
           (mkState ["x"; "y"; "z"] [] [] None)
           (mkWorld unit string tt ["x"]) [].
Proof. reflexivity. Qed.

(** C7, counterexample.  The client answers with empty content: the chunk
    summarizer does not fail, it returns the empty string as the summary. *)
Lemma generateSummary_keeps_empty_content :
  generateSummary unit string (const_llm (ContentText EmptyString))
                  plain_mapPrompt "chunk" demo_world =
  (inr (mkUpdate None (Some [EmptyString]) None None),
   mkWorld unit string tt ["chunk"]) /\
  ~ (exists msg w',
        generateSummary unit string (const_llm (ContentText EmptyString))
                        plain_mapPrompt "chunk" demo_world =
        (inl (UpstreamError msg), w')).
Proof.
  split; [reflexivity|].
  intros (msg & w' & H). vm_compute in H. discriminate H.
Qed.

(** C9, counterexample.  First run: the client answers the final reduce
    call with empty content; the run ends done, the final summary is the
    empty string, the loop runs through and holds the update object, and the
    text the script shows is the JSON rendering of that object, not the
    final summary string.  Second run: one chunk and two collapsing steps;
    the run ends done with the final summary [a], but on the last chunk the
    progress display is called with 5 steps of 4 and throws before
    [finalSummary] is assigned: the script delivers nothing. *)
Lemma empty_final_summary_shown_as_json :
  let run := demo_stream (ContentText EmptyString) tokenMax_source ["chunk"] demo_world in
  let run2 :=
    app_stream nat string (scripted_llm ["aaaaaa"; "aaaaa"; "aa"; "a"])
               plain_mapPrompt plain_reducePrompt 3 partition_awaiting
               (collapseDocs_model nat string) recursionLimit_source
               ["chunk"] (mkWorld nat string 0%nat []) in
  (status run = Done /\
   finalSummary (state run) = Some EmptyString /\
   script_loop (totalSteps ["chunk"]) (mkDriver None 0 0) (stream run) =
     inr (mkDriver (Some (final_update EmptyString)) 1 3) /\
   demo_script (ContentText EmptyString) tokenMax_source ["chunk"] demo_world =
     Shown (String "{" (String newline
              ("  " ++ String dquote
                 ("finalSummary" ++ String dquote
                    (": " ++ String dquote
                       (String dquote (String newline "}"))))))) /\
   demo_script (ContentText EmptyString) tokenMax_source ["chunk"] demo_world <>
     Shown EmptyString) /\
  (status run2 = Done /\
   finalSummary (state run2) = Some "a" /\
   filledLength 5 (totalSteps ["chunk"]) = RInt 38 /\
   script_loop (totalSteps ["chunk"]) (mkDriver None 0 0) (stream run2) =
     inl (mkDriver None 1 5) /\
   run_script nat string (scripted_llm ["aaaaaa"; "aaaaa"; "aa"; "a"])
              plain_mapPrompt plain_reducePrompt 3 partition_awaiting
              (collapseDocs_model nat string) recursionLimit_source
              JSON_stringify_finalSummary ["chunk"]
              (mkWorld nat string 0%nat []) = ThrownRangeError).
Proof.
  vm_compute. repeat split; try reflexivity. discriminate.
Qed.

(** C9, witness: three chunks, a client that answers [abc]. *)
Lemma final_summary_delivery_witness :
  exists s,
    finalSummary
      (state (demo_stream (ContentText "abc") tokenMax_source ["x"; "y"; "z"] demo_world)) =
    Some s /\
    demo_script (ContentText "abc") tokenMax_source ["x"; "y"; "z"] demo_world = Shown s.
Proof.
  destruct (final_summary_delivery unit string (const_llm (ContentText "abc"))
              plain_mapPrompt plain_reducePrompt tokenMax_source
              partition_awaiting
              (collapseDocs_model unit string) recursionLimit_source
              JSON_stringify_finalSummary
              ["x"; "y"; "z"] demo_world)
    as (s & m & _ & Hfs & _ & _ & Hshow).
  - vm_compute. reflexivity.
  - discriminate.
  - exists s. split; [exact Hfs|].
    apply (Hshow (mkDriver (Some (final_update "abc")) 3 5)).
    + vm_compute. reflexivity.
    + apply Nat.ltb_lt. vm_compute. reflexivity.
    + vm_compute in Hfs. injection Hfs as <-. reflexivity.
Defined.

(** C4, witness: three units under a budget of 3 give two sub-lists; the
    client repeats its prompt, so each merged unit shows the sub-list it
    came from, and the merged units stand in the order of the sub-lists. *)
Lemma collapse_preserves_order_witness :
  exists results,
    collapsed_update [mkDocument "aa"; mkDocument "bb,c"] =
      collapsed_update results /\
    collapsedSummaries
      (apply_update
         (mkState [] [] [mkDocument "aa"; mkDocument "bb"; mkDocument "c"] None)
         (collapsed_update [mkDocument "aa"; mkDocument "bb,c"])) = results /\
    List.length results =
    List.length
      (partition_awaiting [mkDocument "aa"; mkDocument "bb"; mkDocument "c"]
                          lengthFunction_async 3) /\
    reduced_in_order unit string echo_llm
      plain_reducePrompt (collapseDocs_model unit string)
      (partition_awaiting [mkDocument "aa"; mkDocument "bb"; mkDocument "c"]
                          lengthFunction_async 3)
      demo_world results (mkWorld unit string tt ["aa"; "bb,c"]).
Proof.
  apply (collapse_preserves_order unit string echo_llm
           plain_reducePrompt 3 partition_awaiting (collapseDocs_model unit string)
           (mkState [] [] [mkDocument "aa"; mkDocument "bb"; mkDocument "c"]
                    None)
           demo_world (mkWorld unit string tt ["aa"; "bb,c"])
           (collapsed_update [mkDocument "aa"; mkDocument "bb,c"])).
  reflexivity.
Defined.

(** * Further worked examples *)

Local Abbreviation scripted_world := (mkWorld nat string 0%nat []).

(** One chunk under a budget of 3, with a client whose answers have
    lengths 6, 5, 2 and 1: two collapsing steps, then the final summary. *)
Local Abbreviation scripted_stream :=
  (app_stream nat string (scripted_llm ["aaaaaa"; "aaaaa"; "aa"; "a"])
              plain_mapPrompt plain_reducePrompt 3 partition_awaiting
              (collapseDocs_model nat string) recursionLimit_source
              ["chunk"] scripted_world).

Example scripted_run :
  status scripted_stream = Done /\
  map fst (stream scripted_stream) =
    [N_generateSummary; N_collectSummaries; N_collapseSummaries;
     N_collapseSummaries; N_generateFinalSummary] /\
  finalSummary (state scripted_stream) = Some "a".
Proof. vm_compute. repeat split; reflexivity. Qed.

(** X1, witness: two units, swapped. *)
Lemma lengthFunction_permutation_witness :
  lengthFunction [mkDocument "ab"; mkDocument "c"] =
  lengthFunction [mkDocument "c"; mkDocument "ab"].
Proof.
  apply (lengthFunction_permutation
           [mkDocument "ab"; mkDocument "c"] [mkDocument "c"; mkDocument "ab"]).
  apply perm_swap.
Defined.

(** X2, witness: a unit of cost 4 over a budget of 3, with neighbours. *)
Lemma shouldCollapse_monotone_witness :
  shouldCollapse 3
    (mkState [] [] ([mkDocument "x"] ++ [mkDocument "abcd"] ++ [mkDocument "y"])
             None) = N_collapseSummaries.
Proof.
  apply (shouldCollapse_monotone 3 (mkState [] [] [mkDocument "abcd"] None)
           [mkDocument "x"] [mkDocument "y"]).
  reflexivity.
Defined.

(** X4, witness: two chunks, a client that repeats its prompt. *)
Lemma fanout_covers_every_chunk_witness :
  calls (mkWorld unit string tt ["x"; "y"]) =
  (calls demo_world ++ map plain_mapPrompt ["x"; "y"])%list.
Proof.
  exact (proj1 (proj2
    (fanout_covers_every_chunk unit string echo_llm plain_mapPrompt
       plain_reducePrompt tokenMax_source partition_awaiting
       (collapseDocs_model unit string)
       (mkState ["x"; "y"] [] [] None) demo_world
       (mkWorld unit string tt ["x"; "y"])
       [(N_generateSummary, summary_update "x");
        (N_generateSummary, summary_update "y")]
       eq_refl))).
Defined.

(** X5, witness: two sub-lists and a quota of one call: the first sub-list
    is merged, the second merge fails, and so does the step. *)
Lemma collapseSummaries_stops_at_first_failure_witness :
  collapseSummaries nat string (quota_llm 1) plain_reducePrompt 3 partition_awaiting
    (collapseDocs_model nat string)
    (mkState [] [] [mkDocument "aa"; mkDocument "bb"; mkDocument "c"] None)
    scripted_world =
  (inl (UpstreamError "quota exceeded"),
   mkWorld nat string 2%nat ["aa"; "bb,c"]).
Proof.
  apply (collapseSummaries_stops_at_first_failure nat string (quota_llm 1)
           plain_reducePrompt 3 partition_awaiting (collapseDocs_model nat string)
           (mkState [] [] [mkDocument "aa"; mkDocument "bb"; mkDocument "c"]
                    None)
           scripted_world (mkWorld nat string 2%nat ["aa"; "bb,c"])
           (UpstreamError "quota exceeded")
           [[mkDocument "aa"]] [] [mkDocument "bb"; mkDocument "c"]).
  - reflexivity.
  - exists [mkDocument "aa"], (mkWorld nat string 1%nat ["aa"]). split.
    + econstructor; [reflexivity|constructor].
    + reflexivity.
Defined.

(** X9, witness: the scripted run, with its two collapsing steps. *)
Lemma successful_run_course_witness :
  exists k,
    count_node N_collapseSummaries (stream scripted_stream) = k /\
    step scripted_stream = (k + 3)%nat.
Proof.
  destruct (successful_run_course nat string
              (scripted_llm ["aaaaaa"; "aaaaa"; "aa"; "a"])
              plain_mapPrompt plain_reducePrompt 3 partition_awaiting
              (collapseDocs_model nat string) recursionLimit_source
              ["chunk"] scripted_world)
    as (k & _ & Hcount & Hstep & _).
  - vm_compute. reflexivity.
  - discriminate.
  - exists k. split; assumption.
Defined.

(** X12, witness: the scripted run ends on a working set of cost 2. *)
Lemma final_reduce_within_budget_witness :
  lengthFunction (collapsedSummaries (state scripted_stream)) <= 3 /\ 0 <= 3.
Proof.
  apply (final_reduce_within_budget nat string
           (scripted_llm ["aaaaaa"; "aaaaa"; "aa"; "a"])
           plain_mapPrompt plain_reducePrompt 3 partition_awaiting
           (collapseDocs_model nat string) recursionLimit_source
           ["chunk"] scripted_world).
  - vm_compute. reflexivity.
  - discriminate.
Defined.

(** X13, witness: three chunks whose summaries fit the budget. *)
Lemma run_without_collapse_calls_witness :
  step (demo_stream (ContentText "abc") tokenMax_source ["x"; "y"; "z"]
                    demo_world) = 3%nat.
Proof.
  apply (run_without_collapse_calls unit string (const_llm (ContentText "abc"))
           plain_mapPrompt plain_reducePrompt tokenMax_source partition_awaiting
           (collapseDocs_model unit string) recursionLimit_source
           ["x"; "y"; "z"] demo_world).
  - vm_compute. reflexivity.
  - discriminate.
  - vm_compute. reflexivity.
Defined.

(** X8, witness: the run of three chunks without collapsing; the loop
    runs through it and holds the update of its last chunk. *)
Lemma driver_keeps_last_final_chunk_witness :
  d_finalSummary (mkDriver (Some (final_update "abc")) 3 5) =
  option_map snd
    (find (fun ch => Node_eqb (fst ch) N_generateFinalSummary)
       (rev (stream (demo_stream (ContentText "abc") tokenMax_source
                                 ["x"; "y"; "z"] demo_world)))).
Proof.
  apply (driver_keeps_last_final_chunk (totalSteps ["x"; "y"; "z"])
           (stream (demo_stream (ContentText "abc") tokenMax_source
                                ["x"; "y"; "z"] demo_world))
           (mkDriver (Some (final_update "abc")) 3 5)).
  vm_compute. reflexivity.
Defined.

(** The progress display in numbers: 4 steps of 4 fill the bar, 5 of 4
    overfill it and the display throws; 61 steps of 60 round to 31. *)
Example progress_display_values :
  filledLength 4 4 = RInt 30 /\
  showLoadingBar_throws 4 4 = false /\
  filledLength 5 4 = RInt 38 /\
  showLoadingBar_throws 5 4 = true /\
  filledLength 61 60 = RInt 31 /\
  showLoadingBar_throws 61 60 = true.
Proof. vm_compute. repeat split; reflexivity. Qed.
